(** * WeasyPrint: the CSS cascade (weasy/css/__init__.py) and the box-tree
    normalisation passes exercised by weasy/tests/test_boxes.py.

    The cascade is embedded from the Python source: dictionaries are finite
    maps, generators are the lists they produce, exceptions are an explicit
    [Raise] result, and the local variables a loop leaves behind are part of
    the threaded state. *)

From Stdlib Require Import ZArith Lia.
From stdpp Require Import gmap strings list fin_maps.

(** ** Python results *)

Inductive exn :=
| KeyError
| UnboundLocalError
| AssertionError
| TypeError
| ExpressionError.

Inductive result (A : Type) :=
| Ok (a : A)
| Raise (e : exn).
Arguments Ok {A} a.
Arguments Raise {A} e.

(** Sequencing: an exception skips the rest.  This gives [result] stdpp's
    monad notation [x ← r; k]. *)
Global Instance result_bind : MBind result := λ A B k r,
  match r with
  | Ok a => k a
  | Raise e => Raise e
  end.
Global Instance result_ret : MRet result := λ A a, Ok a.
Global Instance result_fmap : FMap result := λ A B f r,
  match r with
  | Ok a => Ok (f a)
  | Raise e => Raise e
  end.

Definition is_Ok {A} (r : result A) : bool :=
  match r with Ok _ => true | Raise _ => false end.

(** [d[k]] on a dictionary. *)
Definition getitem `{Countable K} {V} (d : gmap K V) (k : K) : result V :=
  match d !! k with
  | Some v => Ok v
  | None => Raise KeyError
  end.

(** [for x in l: body], with the loop state [s] threaded through and the
    first exception leaving the loop. *)
Fixpoint for_each {A S} (body : A → S → result S) (l : list A) (s : S)
  : result S :=
  match l with
  | [] => Ok s
  | x :: l' => s' ← body x s; for_each body l' s'
  end.

(** Truth value of a Python string: only the empty string is false. *)
Definition str_truthy (s : string) : bool := negb (String.eqb s "").

(** Truth value of [None] or a string. *)
Definition opt_truthy (o : option string) : bool :=
  match o with
  | None => false
  | Some s => str_truthy s
  end.

(** An exception *instance* (as opposed to a raised exception) is an ordinary
    object; it defines neither [__nonzero__] nor [__len__], so it is true. *)
Inductive exception_object := ValueError (msg : string).
Definition exception_truthy (e : exception_object) : bool := true.

(** The [assert] statement. *)
Definition py_assert (cond : bool) : result unit :=
  if cond then Ok tt else Raise AssertionError.

(** ** Weights *)

(** A selector's specificity is the 4-tuple computed by cssutils; a page
    selector's is the integer of [PAGE_PSEUDOCLASS_SPECIFICITY]. *)
Inductive specificity_value :=
| PageSpecificity (n : Z)
| SelectorSpecificity (a b c d : Z).

(** The precedence is whatever [declaration_precedence] returned: an integer,
    or [None]. *)
Definition weight : Type := option Z * specificity_value.

(** Lexicographic combination, as Python compares tuples: the first pair of
    unequal components decides. *)
Definition lex (c d : comparison) : comparison :=
  match c with
  | Eq => d
  | _ => c
  end.

(** Python 2 orders [None] before every number. *)
Definition precedence_cmp (p q : option Z) : comparison :=
  match p, q with
  | None, None => Eq
  | None, Some _ => Lt
  | Some _, None => Gt
  | Some a, Some b => (a ?= b)%Z
  end.

(** Python 2 orders every number before every tuple. *)
Definition specificity_cmp (s t : specificity_value) : comparison :=
  match s, t with
  | PageSpecificity n, PageSpecificity m => (n ?= m)%Z
  | PageSpecificity _, SelectorSpecificity _ _ _ _ => Lt
  | SelectorSpecificity _ _ _ _, PageSpecificity _ => Gt
  | SelectorSpecificity a b c d, SelectorSpecificity a' b' c' d' =>
      lex (a ?= a')%Z (lex (b ?= b')%Z (lex (c ?= c')%Z (d ?= d')%Z))
  end.

Definition weight_cmp (v w : weight) : comparison :=
  lex (precedence_cmp v.1 w.1) (specificity_cmp v.2 w.2).

(** [v <= w] *)
Definition weight_le (v w : weight) : bool :=
  match weight_cmp v w with
  | Gt => false
  | _ => true
  end.

(** [v < w] *)
Definition weight_lt (v w : weight) : bool :=
  match weight_cmp v w with
  | Lt => true
  | _ => false
  end.

(** ** declaration_precedence *)

Definition declaration_precedence (origin importance : string)
  : result (option Z) :=
  if String.eqb origin "user agent" then Ok (Some 1%Z)
  else if String.eqb origin "user" && negb (str_truthy importance)
  then Ok (Some 2%Z)
  else if String.eqb origin "author" && negb (str_truthy importance)
  then Ok (Some 3%Z)
  else if String.eqb origin "author" then Ok (Some 4%Z)
  else if String.eqb origin "user" then Ok (Some 5%Z)
  else
    (* assert ValueError('Unkown origin: %r' % origin) *)
    _ ← py_assert (exception_truthy (ValueError ("Unkown origin: " +:+ origin)));
    Ok None.

(** ** Elements and keys *)

(** An element of the document is identified by its position in the tree:
    the child indices from the element up to the root (so the root is [[]]
    and the parent of [i :: p] is [p]).  The other value a key can hold in
    its first component is the string ['@page']. *)
Inductive element :=
| Element (position : list nat)
| AtPage.

Global Instance element_eq_dec : EqDecision element.
Proof. solve_decision. Defined.

Global Instance element_countable : Countable element.
Proof.
  refine (inj_countable'
            (fun e => match e with Element p => Some p | AtPage => None end)
            (fun o => match o with Some p => Element p | None => AtPage end) _).
  by intros [].
Defined.

Abbreviation key := (element * option string)%type.


(** ** The module's tables *)

Definition PSEUDO_ELEMENTS : list string :=
  ["before"; "after"; "first-line"; "first-letter"].

(** The key [None] stands for "no pseudo-class". *)
Definition PAGE_PSEUDOCLASS_TARGETS : gmap (option string) (list string) :=
  list_to_map
    [(None, ["left"; "right"; "first_left"; "first_right"]);
     (Some ":left", ["left"; "first_left"]);
     (Some ":right", ["right"; "first_right"]);
     (Some ":first", ["first_left"; "first_right"])].

Definition PAGE_PSEUDOCLASS_SPECIFICITY : gmap (option string) Z :=
  list_to_map
    [(None, 0%Z); (Some ":left", 1%Z); (Some ":right", 1%Z);
     (Some ":first", 10%Z)].

(** ** Logging *)

(** The two warnings this module emits through [LOGGER.warn]. *)
Inductive warning :=
| UnsupportedSelector (selectorText : string)
| UnsupportedPageSelector (selector : string).

(** What iterating a generator to its end gives: the items it yields and the
    warnings it logs on the way, or the exception that stops it.  Both
    generators below raise, when they do, before their first [yield]. *)
Abbreviation matched_item := (element * option string * specificity_value)%type.
Abbreviation generated := (result (list matched_item * list warning)).

(** ** match_page_selector *)

Definition match_page_selector (selector : string) : generated :=
  (* pseudo_class = selector or None *)
  let pseudo_class := if str_truthy selector then Some selector else None in
  let page_types := PAGE_PSEUDOCLASS_TARGETS !! pseudo_class in
  specificity ← getitem PAGE_PSEUDOCLASS_SPECIFICITY pseudo_class;
  match page_types with
  | Some page_types =>
      Ok (map (λ page_type,
                 (AtPage, Some page_type, PageSpecificity specificity))
              page_types, [])
  | None => Ok ([], [UnsupportedPageSelector selector])
  end.

(** ** The document tree *)

Local Unset Elimination Schemes.
Inductive etree :=
| Node (tag : string) (attrib : gmap string string) (children : list etree).
Local Set Elimination Schemes.

Definition node_get (attribute : string) (d : etree) : option string :=
  match d with Node _ attrib _ => attrib !! attribute end.

(** [dom.iter()]: the elements in document order, each with its position. *)
Fixpoint iter_from (position : list nat) (d : etree) : list (list nat * etree) :=
  match d with
  | Node _ _ children =>
      (position, d) ::
      (fix over (i : nat) (cs : list etree) : list (list nat * etree) :=
         match cs with
         | [] => []
         | c :: cs' => iter_from (i :: position) c ++ over (S i) cs'
         end) 0%nat children
  end.

Definition iter (d : etree) : list (list nat * etree) := iter_from [] d.

(** [element.getparent()], [None] for the root element. *)
Definition getparent (position : list nat) : option (list nat) :=
  match position with
  | [] => None
  | _ :: parent => Some parent
  end.

(** The elements below a node, from its [i]-th child on. *)
Fixpoint iter_children (position : list nat) (i : nat) (children : list etree)
  : list (list nat * etree) :=
  match children with
  | [] => []
  | c :: rest => iter_from (i :: position) c ++ iter_children position (S i) rest
  end.

(** In a sequence of positions, every element comes after its parent (which
    may also be one of [seen]). *)
Fixpoint parents_first (seen positions : list (list nat)) : Prop :=
  match positions with
  | [] => True
  | p :: rest =>
      match getparent p with
      | None => True
      | Some parent => parent ∈ seen
      end
      ∧ parents_first (p :: seen) rest
  end.

(** ** Selectors, as cssutils and lxml.cssselect present them *)

Record selector := {
  selectorText : string;
  specificity : Z * Z * Z * Z;
}.

(** The result of [cssselect.parse]: only [Pseudo] nodes are inspected. *)
Inductive parsed_selector :=
| Pseudo (element_part : parsed_selector) (ident : string)
| NotPseudo (text : string).

Definition specificity_of (sel : selector) : specificity_value :=
  let '(a, b, c, d) := specificity sel in SelectorSpecificity a b c d.

(** A stylesheet's media list: its [mediaText] and that of each query. *)
Record media_list := {
  mediaText : string;
  queries : list string;
}.

Definition evaluate_media_query (query_list : media_list) (medium : string)
  : bool :=
  String.eqb (mediaText query_list) "all"
  || existsb (λ query, String.eqb query medium) (queries query_list).

Section Cascade.

(** The collaborators this module imports: the type [raw] of a declaration's
    unvalidated [propertyValue], the type [value] of the validated value
    lists ("PropertyValue-like" objects), and the functions of cssutils,
    lxml.cssselect and the sibling modules [validation], [values],
    [properties] and [computed_values]. *)
Context {raw value : Type}.

(** [validation.validate_and_expand(name, values)] *)
Context (validate_and_expand : string → raw → list (string * value)).
(** [cssutils.parseStyle(text)], giving the declarations' [name],
    [propertyValue] and [priority]. *)
Context (parseStyle : string → list (string * raw * string)).
(** [cssselect.parse(text)] *)
Context (cssselect_parse : string → parsed_selector).
(** [cssselect.CSSSelector(parsed)]: the callable that gives the positions of
    the matching elements of a tree, or [ExpressionError]. *)
Context (CSSSelector : parsed_selector → result (etree → list (list nat))).
(** [values.get_single_keyword(values)] *)
Context (get_single_keyword : value → option string).
(** [properties.INITIAL_VALUES] and [properties.INHERITED] *)
Context (INITIAL_VALUES : gmap string value) (INHERITED : gset string).
(** [computed_values.compute_values(element, pseudo_type, style,
    parent_style)], which rewrites [style] in place: here it returns the
    rewritten [style]. *)
Context (compute_values :
  element → option string → gmap string value → option (gmap string value)
  → gmap string value).

(** A declaration as [getProperties(all=True)] lists it. *)
Abbreviation declaration := (string * raw * string)%type.

(** The rules of a parsed stylesheet, by [rule.type].  An [@import] rule
    holds the media list and rules of the sheet it imports; an [@media] rule
    has its own. *)
Local Unset Elimination Schemes.
Inductive rule :=
| CHARSET_RULE
| COMMENT
| IMPORT_RULE (media : media_list) (cssRules : list rule)
| MEDIA_RULE (media : media_list) (cssRules : list rule)
| STYLE_RULE (selectorList : list selector) (style : list declaration)
| PAGE_RULE (selector_text : string) (style : list declaration)
| OTHER_RULE.
Local Set Elimination Schemes.

Record stylesheet := {
  sheet_media : media_list;
  sheet_cssRules : list rule;
}.

(** [find_stylesheets(document)]: the parsed author stylesheets, which come
    from the CSS parser and from the network. *)
Context (find_stylesheets : etree → list stylesheet).

(** One cascaded style: property name -> (values, weight); one computed
    style: property name -> value. *)
Abbreviation cascaded_style := (gmap string (value * weight)).
Abbreviation style_dict := (gmap string value).

(** ** find_style_attributes *)

Definition find_style_attributes (document : etree)
  : list (element * list declaration) :=
  omap (λ '(position, node),
          match node_get "style" node with
          | Some style_attribute =>
              if str_truthy style_attribute
              then Some (Element position, parseStyle style_attribute)
              else None
          | None => None
          end)
       (iter document).

(** ** effective_rules *)

Fixpoint effective_rule (medium : string) (r : rule) : list rule :=
  match r with
  | CHARSET_RULE | COMMENT => []
  | IMPORT_RULE media cssRules | MEDIA_RULE media cssRules =>
      (* effective_rules(subsheet, medium) *)
      if evaluate_media_query media medium
      then flat_map (effective_rule medium) cssRules
      else []
  | _ => [r]
  end.

Definition effective_rules (sheet : stylesheet) (medium : string)
  : list rule :=
  if evaluate_media_query (sheet_media sheet) medium
  then flat_map (effective_rule medium) (sheet_cssRules sheet)
  else [].

(** ** effective_declarations *)

(** The [assert isinstance(values, list)] of the source is a check on what
    [validate_and_expand] gives; here that is the type [value]. *)
Definition effective_declarations (declaration_block : list declaration)
  : list (string * value * string) :=
  flat_map (λ '(name, propertyValue, priority),
              map (λ '(name', values), (name', values, priority))
                  (validate_and_expand name propertyValue))
           declaration_block.

(** ** add_declaration *)

Definition add_declaration (cascaded_styles : gmap key cascaded_style)
    (prop_name : string) (prop_values : value) (w : weight)
    (elt : element) (pseudo_type : option string)
  : gmap key cascaded_style :=
  (* style = cascaded_styles.setdefault((element, pseudo_type), {}) *)
  let style := default ∅ (cascaded_styles !! (elt, pseudo_type)) in
  let cascaded_styles := <[(elt, pseudo_type) := style]> cascaded_styles in
  (* _values, previous_weight = style.get(prop_name, (None, None)) *)
  let previous_weight := snd <$> style !! prop_name in
  if match previous_weight with
     | None => true
     | Some previous => weight_le previous w
     end
  then <[(elt, pseudo_type) := <[prop_name := (prop_values, w)]> style]>
         cascaded_styles
  else cascaded_styles.

(** What is stored for a property under a key. *)
Definition stored (cascaded_styles : gmap key cascaded_style)
    (k : key) (prop_name : string) : option (value * weight) :=
  cascaded_styles !! k ≫= (.!! prop_name).

(** The stored weight, if any, is at most [w]. *)
Definition stored_le (cascaded_styles : gmap key cascaded_style)
    (k : key) (prop_name : string) (w : weight) : bool :=
  match stored cascaded_styles k prop_name with
  | None => true
  | Some (_, previous) => weight_le previous w
  end.

(** ** selector_to_xpath *)

(** The result is also cached on the selector object; the cache only saves
    recomputing the same value. *)
Definition selector_to_xpath (sel : selector)
  : result (option string * (etree → list (list nat))) :=
  let parsed_selector := cssselect_parse (selectorText sel) in
  let '(pseudo_type, parsed_selector) :=
    match parsed_selector with
    | Pseudo element_part ident =>
        if bool_decide (ident ∈ PSEUDO_ELEMENTS)
        then (Some ident, element_part)
        else (None, parsed_selector)
    | _ => (None, parsed_selector)
    end in
  selector_callable ← CSSSelector parsed_selector;
  Ok (pseudo_type, selector_callable).

(** ** match_selectors *)

(** The first loop: compile every selector, or stop at the first
    [ExpressionError] with its warning. *)
Fixpoint compile_selectors (selector_list : list selector)
  : result (list ((etree → list (list nat)) * option string * specificity_value)
            + warning) :=
  match selector_list with
  | [] => Ok (inl [])
  | sel :: rest =>
      match selector_to_xpath sel with
      | Ok (pseudo_type, selector_callable) =>
          compiled ← compile_selectors rest;
          Ok match compiled with
             | inl selectors =>
                 inl ((selector_callable, pseudo_type, specificity_of sel)
                        :: selectors)
             | inr w => inr w
             end
      | Raise ExpressionError =>
          (* LOGGER.warn(...); return *)
          Ok (inr (UnsupportedSelector (selectorText sel)))
      | Raise e => Raise e
      end
  end.

Definition match_selectors (document : etree) (selector_list : list selector)
  : generated :=
  compiled ← compile_selectors selector_list;
  match compiled with
  | inr w => Ok ([], [w])
  | inl selectors =>
      Ok (flat_map (λ '(selector_callable, pseudo_type, spec),
                      map (λ position, (Element position, pseudo_type, spec))
                          (selector_callable document))
                   selectors, [])
  end.

(** ** computed_from_cascaded *)

(** One round of the loop over [INITIAL_VALUES.iteritems()]. *)
Definition resolve_keyword (parent_style : option style_dict)
    (item : string * value) (style : style_dict) : result style_dict :=
  let '(name, initial) := item in
  let keyword :=
    match style !! name with
    | None =>
        if bool_decide (name ∈ INHERITED) then Some "inherit"
        else Some "initial"
    | Some values => get_single_keyword values
    end in
  (* On the root element, 'inherit' from initial values *)
  let keyword :=
    if bool_decide (keyword = Some "inherit")
       && bool_decide (parent_style = None :> option style_dict)
    then Some "initial" else keyword in
  if bool_decide (keyword = Some "initial") then Ok (<[name := initial]> style)
  else if bool_decide (keyword = Some "inherit") then
    (* style[name] = parent_style[name] *)
    match parent_style with
    | Some parent_style =>
        inherited ← getitem parent_style name;
        Ok (<[name := inherited]> style)
    | None => Raise TypeError (* not reached: see the test above *)
    end
  else Ok style.

(** The style with specified values, as handed to [compute_values]. *)
Definition specified_from_cascaded (cascaded : cascaded_style)
    (parent_style : option style_dict) : result style_dict :=
  let style := fst <$> cascaded in
  for_each (resolve_keyword parent_style) (map_to_list INITIAL_VALUES) style.

Definition computed_from_cascaded (elt : element) (cascaded : cascaded_style)
    (parent_style : option style_dict) (pseudo_type : option string)
  : result style_dict :=
  style ← specified_from_cascaded cascaded parent_style;
  Ok (compute_values elt pseudo_type style parent_style).

(** *** The resolution of one property, as the specification words it *)

(** The keyword a property resolves through: that of its cascaded value, or
    by default ['inherit'] for an inherited property and ['initial'] for any
    other. *)
Definition keyword_of (current : option value) (name : string)
  : option string :=
  match current with
  | None =>
      if bool_decide (name ∈ INHERITED) then Some "inherit" else Some "initial"
  | Some values => get_single_keyword values
  end.

(** The specified value: the initial value for ['initial']; the parent's
    computed value for ['inherit'], or the initial value without a parent;
    the cascaded value for anything else. *)
Definition resolved (current : option value)
    (parent_style : option style_dict) (name : string) (initial : value)
  : option value :=
  let keyword := keyword_of current name in
  if bool_decide (keyword = Some "initial") then Some initial
  else if bool_decide (keyword = Some "inherit") then
    match parent_style with
    | None => Some initial
    | Some parent_style => parent_style !! name
    end
  else current.

(** A style with every property of the fixed set. *)
Definition complete (style : style_dict) : Prop :=
  dom INITIAL_VALUES ⊆ dom style.

(** A parent style is a computed style: it has every property. *)
Definition parent_complete (parent_style : option style_dict) : Prop :=
  match parent_style with
  | None => True
  | Some parent_style => complete parent_style
  end.

(** ** set_computed_styles *)

Definition set_computed_styles (cascaded_styles : gmap key cascaded_style)
    (computed_styles : gmap key style_dict)
    (elt : element) (pseudo_type : option string)
  : result (gmap key style_dict) :=
  let parent :=
    match elt with
    | AtPage => None
    | Element position =>
        if opt_truthy pseudo_type then Some position else getparent position
    end in
  parent_style ←
    match parent with
    | None => Ok None
    | Some parent => Some <$> getitem computed_styles (Element parent, None)
    end;
  let cascaded := default ∅ (cascaded_styles !! (elt, pseudo_type)) in
  style ← computed_from_cascaded elt cascaded parent_style pseudo_type;
  Ok (<[(elt, pseudo_type) := style]> computed_styles).

(** Every cascaded style in the map holds a declaration. *)
Definition all_nonempty (cs : gmap key cascaded_style) : Prop :=
  ∀ k style, cs !! k = Some style → style ≠ ∅.

(** ** get_all_computed_styles *)

(** The function's local state while it builds the cascade: the dictionary
    [cascaded_styles], the local variable [pseudo_type] ([None] while no
    assignment has bound it) and the warnings logged so far. *)
Record locals := {
  cascaded_styles : gmap key cascaded_style;
  pseudo_type_var : option (option string);
  log : list warning;
}.

(** Reading a local variable. *)
Definition read_local {A} (var : option A) : result A :=
  match var with
  | Some v => Ok v
  | None => Raise UnboundLocalError
  end.

(** [for name, values, importance in declarations: ...] of the rule loop. *)
Definition apply_declaration (origin : string) (elt : element)
    (pseudo_type : option string) (spec : specificity_value)
    (decl : string * value * string) (cs : gmap key cascaded_style)
  : result (gmap key cascaded_style) :=
  let '(name, values, importance) := decl in
  precedence ← declaration_precedence origin importance;
  let w := (precedence, spec) in
  Ok (add_declaration cs name values w elt pseudo_type).

(** [for element, pseudo_type, specificity in matched: ...]: the loop header
    binds the three variables, of which [pseudo_type] is read again later. *)
Definition apply_matched (origin : string)
    (declarations : list (string * value * string))
    (item : matched_item) (st : locals) : result locals :=
  let '(elt, pseudo_type, spec) := item in
  cs ← for_each (apply_declaration origin elt pseudo_type spec) declarations
                (cascaded_styles st);
  Ok {| cascaded_styles := cs;
        pseudo_type_var := Some pseudo_type;
        log := log st |}.

(** [for rule in effective_rules(sheet, medium): ...].  [matched] is a
    generator, so it runs (and logs, or raises) when the loop over it starts,
    after the declarations were expanded.  The logger's level, which the
    function lowers around [effective_declarations] for the user-agent
    origin, only filters what [validation] logs. *)
Definition apply_rule (document : etree) (origin : string) (r : rule)
    (st : locals) : result locals :=
  let selected :=
    match r with
    | STYLE_RULE selectorList style =>
        Some (match_selectors document selectorList, style)
    | PAGE_RULE selector_text style =>
        Some (match_page_selector selector_text, style)
    | _ => None
    end in
  match selected with
  | None => Ok st
  | Some (matched, style) =>
      let declarations := effective_declarations style in
      '(items, warnings) ← matched;
      st ← for_each (apply_matched origin declarations) items
                    {| cascaded_styles := cascaded_styles st;
                       pseudo_type_var := pseudo_type_var st;
                       log := log st ++ warnings |};
      Ok st
  end.

Definition apply_origin (document : etree) (medium : string)
    (origin_sheets : list stylesheet * string) (st : locals) : result locals :=
  let '(sheets, origin) := origin_sheets in
  for_each (λ sheet, for_each (apply_rule document origin)
                              (effective_rules sheet medium))
           sheets st.

(** [for element, declarations in find_style_attributes(document): ...] *)
Definition apply_style_attribute (item : element * list declaration)
    (st : locals) : result locals :=
  let '(elt, declarations) := item in
  for_each (λ '(name, values, importance) st,
              precedence ← declaration_precedence "author" importance;
              let w := (precedence, SelectorSpecificity 1 0 0 0) in
              pseudo_type ← read_local (pseudo_type_var st);
              Ok {| cascaded_styles :=
                      add_declaration (cascaded_styles st) name values w
                                      elt pseudo_type;
                    pseudo_type_var := pseudo_type_var st;
                    log := log st |})
           (effective_declarations declarations) st.

(** The first half of the function, up to the cascaded styles. *)
Definition cascade (document : etree) (medium : string)
    (user_stylesheets ua_stylesheets : option (list stylesheet))
  : result locals :=
  let author_stylesheets := find_stylesheets document in
  st ← for_each (apply_origin document medium)
                [(author_stylesheets, "author");
                 (default [] user_stylesheets, "user");
                 (default [] ua_stylesheets, "user agent")]
                {| cascaded_styles := ∅; pseudo_type_var := None; log := [] |};
  for_each apply_style_attribute (find_style_attributes document) st.

(** The second half: the three loops that fill [computed_styles].  The
    second one goes through the keys of [cascaded_styles] in the dictionary's
    order, which is the map's here; its rounds do not depend on each
    other. *)
Definition compute (document : etree)
    (cascaded_styles : gmap key cascaded_style)
  : result (gmap key style_dict) :=
  computed_styles ←
    for_each (λ '(position, _) computed_styles,
                set_computed_styles cascaded_styles computed_styles
                                    (Element position) None)
             (iter document) ∅;
  computed_styles ←
    for_each (λ '(elt, pseudo_type) computed_styles,
                if opt_truthy pseudo_type && negb (bool_decide (elt = AtPage))
                then set_computed_styles cascaded_styles computed_styles
                                         elt pseudo_type
                else Ok computed_styles)
             (map_to_list cascaded_styles).*1 computed_styles;
  page_types ← getitem PAGE_PSEUDOCLASS_TARGETS None;
  for_each (λ page_type computed_styles,
              set_computed_styles cascaded_styles computed_styles
                                  AtPage (Some page_type))
           page_types computed_styles.

Definition get_all_computed_styles (document : etree) (medium : string)
    (user_stylesheets ua_stylesheets : option (list stylesheet))
  : result (gmap key style_dict) :=
  st ← cascade document medium user_stylesheets ua_stylesheets;
  compute document (cascaded_styles st).

(** The four page types, [PAGE_PSEUDOCLASS_TARGETS[None]]. *)
Definition page_types : list string :=
  ["left"; "right"; "first_left"; "first_right"].

(** The keys of the pseudo-elements that have cascaded styles: the keys the
    second loop of [compute] does not skip. *)
Definition is_pseudo_element_key (k : key) : bool :=
  opt_truthy k.2 && negb (bool_decide (k.1 = AtPage)).

(** ** Loops *)

Lemma bind_Ok_inv {A B} (r : result A) (k : A → result B) (b : B) :
  r ≫= k = Ok b → ∃ a, r = Ok a ∧ k a = Ok b.
Proof. destruct r as [a|]; [|done]. intros E. by exists a. Qed.

Lemma for_each_cons {A S} (body : A → S → result S) x l s :
  for_each body (x :: l) s = body x s ≫= for_each body l.
Proof. reflexivity. Qed.

(** ** The order on weights *)

Lemma lex_opp c d : CompOpp (lex c d) = lex (CompOpp c) (CompOpp d).
Proof. by destruct c. Qed.

Lemma precedence_cmp_opp p q : precedence_cmp q p = CompOpp (precedence_cmp p q).
Proof. destruct p, q; simpl; auto using Z.compare_antisym. Qed.

Lemma specificity_cmp_opp s t :
  specificity_cmp t s = CompOpp (specificity_cmp s t).
Proof.
  destruct s, t; simpl; auto using Z.compare_antisym.
  rewrite !lex_opp, <- !Z.compare_antisym. done.
Qed.

Lemma weight_cmp_opp v w : weight_cmp w v = CompOpp (weight_cmp v w).
Proof.
  unfold weight_cmp.
  by rewrite lex_opp, <- precedence_cmp_opp, <- specificity_cmp_opp.
Qed.

Lemma precedence_cmp_eq p q : precedence_cmp p q = Eq ↔ p = q.
Proof.
  destruct p, q; simpl; try (split; congruence).
  rewrite Z.compare_eq_iff. split; congruence.
Qed.

Lemma specificity_cmp_eq s t : specificity_cmp s t = Eq ↔ s = t.
Proof.
  destruct s as [n|a b c d], t as [m|a' b' c' d']; simpl;
    try (split; congruence).
  - rewrite Z.compare_eq_iff. split; congruence.
  - split.
    + destruct (Z.compare_spec a a'); try discriminate.
      destruct (Z.compare_spec b b'); try discriminate.
      destruct (Z.compare_spec c c'); try discriminate.
      simpl. rewrite Z.compare_eq_iff. congruence.
    + intros [= -> -> -> ->]. by rewrite !Z.compare_refl.
Qed.

Lemma weight_cmp_eq v w : weight_cmp v w = Eq ↔ v = w.
Proof.
  destruct v as [p s], w as [q t]. unfold weight_cmp. simpl. split.
  - destruct (precedence_cmp p q) eqn:Hp; try discriminate. simpl.
    intros Hs. apply precedence_cmp_eq in Hp. apply specificity_cmp_eq in Hs.
    congruence.
  - intros [= -> ->].
    by rewrite (proj2 (precedence_cmp_eq q q)), (proj2 (specificity_cmp_eq t t)).
Qed.

Lemma weight_le_refl w : weight_le w w = true.
Proof. unfold weight_le. by rewrite (proj2 (weight_cmp_eq w w)). Qed.

Lemma weight_lt_le v w : weight_lt v w = true → weight_le v w = true.
Proof. unfold weight_lt, weight_le. by destruct (weight_cmp v w). Qed.

Lemma weight_lt_not_ge v w : weight_lt v w = true → weight_le w v = false.
Proof.
  unfold weight_lt, weight_le. rewrite (weight_cmp_opp v w).
  by destruct (weight_cmp v w).
Qed.

Lemma weight_le_total v w : weight_le v w = true ∨ weight_le w v = true.
Proof.
  unfold weight_le. rewrite (weight_cmp_opp v w).
  destruct (weight_cmp v w); auto.
Qed.

Lemma weight_le_antisym v w :
  weight_le v w = true → weight_le w v = true → v = w.
Proof.
  unfold weight_le. rewrite (weight_cmp_opp v w).
  destruct (weight_cmp v w) eqn:E; try done.
  intros _ _. by apply weight_cmp_eq.
Qed.

(** ** declaration_precedence *)

Lemma declaration_precedence_author (importance : string) :
  declaration_precedence "author" importance
  = Ok (Some (if str_truthy importance then 4%Z else 3%Z)).
Proof.
  unfold declaration_precedence. simpl. by destruct (str_truthy importance).
Qed.

(** C6: the five precedence levels.  The user-agent origin has level 1
    whatever the importance; the user origin has level 2 for a declaration
    that is not important and 5 for an important one; the author origin has
    level 3 for a declaration that is not important and 4 for an important
    one.  (The importance is the declaration's [priority] string, which is
    empty when the declaration is not important.) *)
Theorem declaration_precedence_scale (importance : string) :
  declaration_precedence "user agent" importance = Ok (Some 1%Z)
  ∧ declaration_precedence "user" importance
    = Ok (Some (if str_truthy importance then 5%Z else 2%Z))
  ∧ declaration_precedence "author" importance
    = Ok (Some (if str_truthy importance then 4%Z else 3%Z))
  ∧ declaration_precedence "user" "" = Ok (Some 2%Z)
  ∧ declaration_precedence "author" "" = Ok (Some 3%Z)
  ∧ declaration_precedence "author" "important" = Ok (Some 4%Z)
  ∧ declaration_precedence "user" "important" = Ok (Some 5%Z).
Proof.
  repeat split; try reflexivity;
    unfold declaration_precedence; simpl; by destruct (str_truthy importance).
Qed.

(** An origin outside the three labels reaches the last branch, whose
    [assert] is given an exception object instead of raising it: the
    assertion holds and the function returns [None]. *)
Lemma declaration_precedence_unknown (origin importance : string) :
  origin ≠ "user agent" → origin ≠ "user" → origin ≠ "author" →
  declaration_precedence origin importance = Ok None.
Proof.
  intros H1 H2 H3. unfold declaration_precedence.
  apply String.eqb_neq in H1, H2, H3. by rewrite H1, H2, H3.
Qed.

(** C4: on the origin label ['robot'] the call does not signal an error: it
    returns [None]. *)
Theorem declaration_precedence_unknown_origin_returns_None :
  declaration_precedence "robot" "" = Ok None
  ∧ declaration_precedence "robot" "important" = Ok None.
Proof. split; reflexivity. Qed.

(** ** match_page_selector *)

(** C7: the page types and specificity of each supported page selector. *)
Theorem match_page_selector_table :
  match_page_selector ""
  = Ok ([(AtPage, Some "left", PageSpecificity 0);
         (AtPage, Some "right", PageSpecificity 0);
         (AtPage, Some "first_left", PageSpecificity 0);
         (AtPage, Some "first_right", PageSpecificity 0)], [])
  ∧ match_page_selector ":left"
    = Ok ([(AtPage, Some "left", PageSpecificity 1);
           (AtPage, Some "first_left", PageSpecificity 1)], [])
  ∧ match_page_selector ":right"
    = Ok ([(AtPage, Some "right", PageSpecificity 1);
           (AtPage, Some "first_right", PageSpecificity 1)], [])
  ∧ match_page_selector ":first"
    = Ok ([(AtPage, Some "first_left", PageSpecificity 10);
           (AtPage, Some "first_right", PageSpecificity 10)], []).
Proof. repeat split; vm_compute; reflexivity. Qed.

(** Any other selector text is missing from [PAGE_PSEUDOCLASS_SPECIFICITY],
    which is subscripted before the test on [page_types]: the generator
    raises [KeyError] and never reaches its warning. *)
Lemma match_page_selector_unsupported (selector : string) :
  selector ≠ "" → selector ≠ ":left" → selector ≠ ":right" →
  selector ≠ ":first" →
  match_page_selector selector = Raise KeyError.
Proof.
  intros H0 H1 H2 H3. unfold match_page_selector.
  assert (str_truthy selector = true) as ->.
  { unfold str_truthy. apply negb_true_iff. by apply String.eqb_neq. }
  assert (PAGE_PSEUDOCLASS_SPECIFICITY !! Some selector = None) as Hnone.
  { apply not_elem_of_list_to_map_1. simpl.
    rewrite !not_elem_of_cons. repeat split; try congruence.
    apply not_elem_of_nil. }
  unfold getitem. by rewrite Hnone.
Qed.

(** ** What add_declaration leaves in the map *)

Lemma stored_add_declaration_same cs name values w elt pseudo_type :
  stored (add_declaration cs name values w elt pseudo_type)
         (elt, pseudo_type) name
  = match stored cs (elt, pseudo_type) name with
    | None => Some (values, w)
    | Some (previous_values, previous) =>
        if weight_le previous w then Some (values, w)
        else Some (previous_values, previous)
    end.
Proof.
  unfold add_declaration, stored.
  destruct (cs !! (elt, pseudo_type)) as [style|] eqn:Hk; simpl.
  - destruct (style !! name) as [[v0 w0]|] eqn:Hn; simpl.
    + destruct (weight_le w0 w); rewrite lookup_insert_eq; simpl.
      * by rewrite lookup_insert_eq.
      * done.
    + rewrite lookup_insert_eq. simpl. by rewrite lookup_insert_eq.
  - rewrite lookup_empty. simpl. rewrite lookup_insert_eq. simpl.
    by rewrite lookup_insert_eq.
Qed.

Lemma stored_add_declaration_other cs name values w elt pseudo_type k name' :
  (k, name') ≠ ((elt, pseudo_type), name) →
  stored (add_declaration cs name values w elt pseudo_type) k name'
  = stored cs k name'.
Proof.
  intros Hne. unfold add_declaration, stored.
  destruct (decide (k = (elt, pseudo_type))) as [->|Hk].
  - assert (name' ≠ name) by congruence.
    destruct (cs !! (elt, pseudo_type)) as [style|] eqn:Hs; simpl;
      repeat case_match; rewrite ?lookup_insert_eq; simpl;
      rewrite ?lookup_insert_ne by done; done.
  - repeat case_match; rewrite !lookup_insert_ne by done; done.
Qed.

(** C1: [add_declaration] stores the new (values, weight) exactly when
    nothing is stored yet for the property under the key or the stored weight
    is at most the new one, and keeps the stored pair otherwise.
    Consequently, of two declarations on the same property and key whose
    weights differ, the heavier one is stored after both were processed, in
    either order; and of two declarations of equal weight, the one processed
    last is stored.  (The two declarations are added to any map that holds
    nothing heavier than their maximum for the property, an empty map for
    one.) *)
Theorem add_declaration_winner
    (cs : gmap key cascaded_style) (name : string)
    (elt : element) (pseudo_type : option string) :
  (∀ values w,
     stored (add_declaration cs name values w elt pseudo_type)
            (elt, pseudo_type) name
     = match stored cs (elt, pseudo_type) name with
       | None => Some (values, w)
       | Some (previous_values, previous) =>
           if weight_le previous w then Some (values, w)
           else Some (previous_values, previous)
       end)
  ∧ (∀ v1 w1 v2 w2,
       stored_le cs (elt, pseudo_type) name w2 = true →
       weight_lt w1 w2 = true →
       stored (add_declaration
                 (add_declaration cs name v1 w1 elt pseudo_type)
                 name v2 w2 elt pseudo_type) (elt, pseudo_type) name
       = Some (v2, w2)
       ∧ stored (add_declaration
                   (add_declaration cs name v2 w2 elt pseudo_type)
                   name v1 w1 elt pseudo_type) (elt, pseudo_type) name
         = Some (v2, w2))
  ∧ (∀ v1 v2 w,
       stored_le cs (elt, pseudo_type) name w = true →
       stored (add_declaration
                 (add_declaration cs name v1 w elt pseudo_type)
                 name v2 w elt pseudo_type) (elt, pseudo_type) name
       = Some (v2, w)).
Proof.
  split; [|split].
  - intros. apply stored_add_declaration_same.
  - intros v1 w1 v2 w2 Hle Hlt. unfold stored_le in Hle.
    rewrite !stored_add_declaration_same.
    pose proof (weight_lt_le _ _ Hlt) as Hle12.
    pose proof (weight_lt_not_ge _ _ Hlt) as Hnge.
    destruct (stored cs (elt, pseudo_type) name) as [[v0 w0]|].
    + rewrite Hle. rewrite Hnge.
      destruct (weight_le w0 w1); by rewrite ?Hle12, ?Hle.
    + by rewrite Hle12, Hnge.
  - intros v1 v2 w Hle. unfold stored_le in Hle.
    rewrite !stored_add_declaration_same.
    destruct (stored cs (elt, pseudo_type) name) as [[v0 w0]|].
    + rewrite Hle. by rewrite weight_le_refl.
    + by rewrite weight_le_refl.
Qed.

(** ** match_selectors *)

(** A selector list in which some selector does not compile (and none fails
    in another way) gives no match at all, only the warning about the first
    such selector. *)
Lemma compile_selectors_unsupported (selector_list : list selector) :
  Forall (λ sel, selector_to_xpath sel = Raise ExpressionError
                 ∨ is_Ok (selector_to_xpath sel) = true) selector_list →
  Exists (λ sel, selector_to_xpath sel = Raise ExpressionError)
         selector_list →
  ∃ sel, sel ∈ selector_list
         ∧ selector_to_xpath sel = Raise ExpressionError
         ∧ compile_selectors selector_list
           = Ok (inr (UnsupportedSelector (selectorText sel))).
Proof.
  induction 1 as [|sel rest Hsel Hrest IH]; intros Hex.
  - by apply Exists_nil in Hex.
  - simpl. destruct Hsel as [Hsel|Hsel].
    + exists sel. rewrite Hsel. split; [left|done].
    + destruct (selector_to_xpath sel) as [[pseudo callable]|] eqn:E;
        [|done].
      apply Exists_cons in Hex as [Hex|Hex]; [congruence|].
      destruct (IH Hex) as (bad & Hin & Hbad & ->).
      exists bad. split; [by right|]. split; [done|]. reflexivity.
Qed.

Lemma match_selectors_unsupported (document : etree)
    (selector_list : list selector) :
  Forall (λ sel, selector_to_xpath sel = Raise ExpressionError
                 ∨ is_Ok (selector_to_xpath sel) = true) selector_list →
  Exists (λ sel, selector_to_xpath sel = Raise ExpressionError)
         selector_list →
  ∃ sel, sel ∈ selector_list
         ∧ match_selectors document selector_list
           = Ok ([], [UnsupportedSelector (selectorText sel)]).
Proof.
  intros Hall Hex.
  destruct (compile_selectors_unsupported _ Hall Hex) as (sel & Hin & _ & E).
  exists sel. split; [done|]. unfold match_selectors. by rewrite E.
Qed.

(** ** computed_from_cascaded *)

Lemma resolve_keyword_step parent_style name initial (style : style_dict) :
  (∀ ps, parent_style = Some ps → is_Some (ps !! name)) →
  ∃ style',
    resolve_keyword parent_style (name, initial) style = Ok style'
    ∧ style' !! name = resolved (style !! name) parent_style name initial
    ∧ ∀ name', name' ≠ name → style' !! name' = style !! name'.
Proof.
  intros Hparent. unfold resolve_keyword, resolved, keyword_of.
  set (keyword := match style !! name with
                  | Some values => get_single_keyword values
                  | None => _
                  end).
  destruct parent_style as [ps|].
  - destruct (Hparent ps eq_refl) as [inherited Hin].
    rewrite andb_false_r.
    destruct (bool_decide (keyword = Some "initial")).
    + eexists. split; [done|]. split; [by rewrite lookup_insert_eq|].
      intros. by rewrite lookup_insert_ne.
    + destruct (bool_decide (keyword = Some "inherit")).
      * unfold getitem. rewrite Hin. simpl. eexists. split; [done|].
        split; [by rewrite lookup_insert_eq|].
        intros. by rewrite lookup_insert_ne.
      * eexists. done.
  - rewrite andb_true_r.
    destruct (bool_decide (keyword = Some "inherit")) eqn:Hinh.
    + simpl. apply bool_decide_eq_true in Hinh.
      rewrite Hinh. simpl.
      eexists. split; [done|]. split; [by rewrite lookup_insert_eq|].
      intros. by rewrite lookup_insert_ne.
    + destruct (bool_decide (keyword = Some "initial")).
      * eexists. split; [done|]. split; [by rewrite lookup_insert_eq|].
        intros. by rewrite lookup_insert_ne.
      * rewrite Hinh. eexists. done.
Qed.

Lemma resolve_keyword_loop parent_style (items : list (string * value)) :
  NoDup items.*1 →
  (∀ ps name, parent_style = Some ps → name ∈ items.*1 → is_Some (ps !! name)) →
  ∀ style : style_dict,
  ∃ style',
    for_each (resolve_keyword parent_style) items style = Ok style'
    ∧ (∀ name initial, (name, initial) ∈ items →
         style' !! name = resolved (style !! name) parent_style name initial)
    ∧ (∀ name, name ∉ items.*1 → style' !! name = style !! name).
Proof.
  induction items as [|[name initial] items IH]; intros Hnodup Hparent style.
  - exists style. split; [done|]. split; [|done].
    intros ? ? Hin. by apply elem_of_nil in Hin.
  - apply NoDup_cons in Hnodup as [Hfresh Hnodup].
    destruct (resolve_keyword_step parent_style name initial style)
      as (style1 & E1 & Hname & Hother).
    { intros ps ->. apply Hparent; [done|]. left. }
    destruct (IH Hnodup) with (style := style1)
      as (style' & E & Hitems & Hrest).
    { intros ps n -> Hn. apply Hparent; [done|]. by right. }
    exists style'. rewrite for_each_cons, E1. split; [done|]. split.
    + intros n i Hin. apply elem_of_cons in Hin as [[= -> ->]|Hin].
      * simpl in Hfresh. by rewrite (Hrest _ Hfresh).
      * rewrite (Hitems _ _ Hin). rewrite Hother; [done|].
        intros ->. apply Hfresh. apply list_elem_of_fmap.
        by exists (name, i).
    + intros n Hn. apply not_elem_of_cons in Hn as [Hne Hn].
      rewrite (Hrest _ Hn). by apply Hother.
Qed.

Lemma resolved_is_Some current parent_style name initial :
  (∀ ps, parent_style = Some ps → is_Some (ps !! name)) →
  (current = None → is_Some (resolved current parent_style name initial))
  ∧ (is_Some current → is_Some (resolved current parent_style name initial)).
Proof.
  intros Hparent. unfold resolved, keyword_of. split.
  - intros ->. destruct (bool_decide (name ∈ INHERITED)); simpl; [|done].
    destruct parent_style; [by eapply Hparent|done].
  - intros Hsome. repeat case_match; try done. by eapply Hparent.
Qed.

Lemma specified_from_cascaded_resolved (cascaded : cascaded_style)
    (parent_style : option style_dict) :
  parent_complete parent_style →
  ∃ specified,
    specified_from_cascaded cascaded parent_style = Ok specified
    ∧ ∀ name initial,
        INITIAL_VALUES !! name = Some initial →
        is_Some (specified !! name)
        ∧ specified !! name
          = resolved (fst <$> cascaded !! name) parent_style name initial.
Proof.
  intros Hparent.
  assert (∀ ps name, parent_style = Some ps →
                     name ∈ (map_to_list INITIAL_VALUES).*1 →
                     is_Some (ps !! name)) as Hcomplete.
  { intros ps name -> Hname. simpl in Hparent.
    apply elem_of_dom, Hparent, elem_of_dom.
    apply list_elem_of_fmap in Hname as ([n i] & -> & Hin).
    apply elem_of_map_to_list in Hin. by exists i. }
  destruct (resolve_keyword_loop parent_style (map_to_list INITIAL_VALUES))
    with (style := (fst <$> cascaded : style_dict))
    as (specified & E & Hitems & _).
  { apply NoDup_fst_map_to_list. }
  { done. }
  exists specified. split; [done|]. intros name initial Hini.
  assert (specified !! name
          = resolved (fst <$> cascaded !! name) parent_style name initial)
    as Hspec.
  { rewrite (Hitems name initial); [by rewrite lookup_fmap|].
    by apply elem_of_map_to_list. }
  split; [|done]. rewrite Hspec.
  destruct (resolved_is_Some (fst <$> cascaded !! name) parent_style
              name initial) as [Hnone Hsome].
  - intros ps ->. apply Hcomplete; [done|].
    apply list_elem_of_fmap. exists (name, initial).
    split; [done|]. by apply elem_of_map_to_list.
  - destruct (cascaded !! name); [apply Hsome; by eexists|by apply Hnone].
Qed.

(** A computed style has every property, if [compute_values] removes none. *)
Lemma computed_from_cascaded_Ok (elt : element) (cascaded : cascaded_style)
    (parent_style : option style_dict) (pseudo_type : option string) :
  (∀ e pt (style : style_dict) ps,
     dom style ⊆ dom (compute_values e pt style ps)) →
  parent_complete parent_style →
  ∃ style,
    computed_from_cascaded elt cascaded parent_style pseudo_type = Ok style
    ∧ complete style.
Proof.
  intros Hcompute Hparent.
  destruct (specified_from_cascaded_resolved cascaded parent_style Hparent)
    as (specified & E & Hname).
  exists (compute_values elt pseudo_type specified parent_style).
  unfold computed_from_cascaded. rewrite E. split; [done|].
  intros name Hin. apply Hcompute. apply elem_of_dom.
  apply elem_of_dom in Hin as [initial Hini].
  by destruct (Hname name initial Hini).
Qed.

(** C5: [computed_from_cascaded] returns a style, the one [compute_values]
    makes of the specified style, and the specified style has every property
    of the fixed set, resolved as follows: a property without a cascaded
    value goes by the keyword ['inherit'] if it is in the inherited set and
    ['initial'] otherwise; ['initial'] gives the property's initial value;
    ['inherit'] gives the parent's computed value, or the initial value when
    there is no parent style; any other cascaded value is kept.  The returned
    style has every property too, [compute_values] removing none.  (A parent
    style is a computed style, so it has every property.) *)
Theorem computed_from_cascaded_no_gaps
    (elt : element) (cascaded : cascaded_style)
    (parent_style : option style_dict) (pseudo_type : option string) :
  (∀ e pt (style : style_dict) ps,
     dom style ⊆ dom (compute_values e pt style ps)) →
  parent_complete parent_style →
  ∃ specified,
    specified_from_cascaded cascaded parent_style = Ok specified
    ∧ computed_from_cascaded elt cascaded parent_style pseudo_type
      = Ok (compute_values elt pseudo_type specified parent_style)
    ∧ dom INITIAL_VALUES
      ⊆ dom (compute_values elt pseudo_type specified parent_style)
    ∧ ∀ name initial,
        INITIAL_VALUES !! name = Some initial →
        is_Some (specified !! name)
        ∧ specified !! name
          = resolved (fst <$> cascaded !! name) parent_style name initial
        ∧ (cascaded !! name = None → name ∈ INHERITED →
           specified !! name
           = match parent_style with
             | Some ps => ps !! name
             | None => Some initial
             end)
        ∧ (cascaded !! name = None → name ∉ INHERITED →
           specified !! name = Some initial).
Proof.
  intros Hcompute Hparent.
  destruct (specified_from_cascaded_resolved cascaded parent_style Hparent)
    as (specified & E & Hname).
  exists specified. split; [done|].
  unfold computed_from_cascaded. rewrite E. split; [done|]. split.
  - intros name Hin. apply Hcompute. apply elem_of_dom.
    apply elem_of_dom in Hin as [initial Hini].
    by destruct (Hname name initial Hini).
  - intros name initial Hini. destruct (Hname name initial Hini) as [Hsome Hspec].
    split; [done|]. split; [done|]. rewrite Hspec. split.
    + intros -> Hinh. unfold resolved, keyword_of. simpl.
      rewrite (bool_decide_eq_true_2 _ Hinh). simpl.
      by destruct parent_style.
    + intros -> Hinh. unfold resolved, keyword_of. simpl.
      by rewrite (bool_decide_eq_false_2 _ Hinh).
Qed.

(** ** The keys of the computed styles *)

Lemma for_each_Ok_inv {A S} (body : A → S → result S) (P : S → Prop) l :
  (∀ x s s', x ∈ l → P s → body x s = Ok s' → P s') →
  ∀ s s', P s → for_each body l s = Ok s' → P s'.
Proof.
  induction l as [|x l IH]; intros Hbody s s' Hs E.
  - by injection E as <-.
  - rewrite for_each_cons in E. destruct (body x s) as [s1|] eqn:E1; [|done].
    simpl in E. eapply IH; [| |exact E].
    + intros y t t' Hy. apply Hbody. by right.
    + eapply Hbody; [left|exact Hs|exact E1].
Qed.

Lemma for_each_dom {A V} (body : A → gmap key V → result (gmap key V))
    (added : A → gset key) l :
  (∀ x s s', body x s = Ok s' → dom s' = added x ∪ dom s) →
  ∀ s s', for_each body l s = Ok s' → dom s' = ⋃ (added <$> l) ∪ dom s.
Proof.
  intros Hbody. induction l as [|x l IH]; intros s s' E.
  - injection E as <-. simpl. by rewrite (left_id_L ∅ (∪)).
  - rewrite for_each_cons in E. destruct (body x s) as [s1|] eqn:E1; [|done].
    simpl in E. rewrite (IH _ _ E), (Hbody _ _ _ E1).
    rewrite fmap_cons, union_list_cons, (assoc_L (∪)).
    by rewrite (comm_L (∪) (added x)).
Qed.

Lemma set_computed_styles_Ok (cs : gmap key cascaded_style)
    (computed : gmap key style_dict) elt pt computed' :
  set_computed_styles cs computed elt pt = Ok computed' →
  ∃ parent_style style,
    computed_from_cascaded elt (default ∅ (cs !! (elt, pt))) parent_style pt
    = Ok style
    ∧ computed' = <[(elt, pt) := style]> computed.
Proof.
  unfold set_computed_styles. intros E.
  destruct (match match elt with AtPage => None | Element _ => _ end with
            | Some _ => _ | None => _ end) as [parent_style|]; [|done].
  simpl in E.
  destruct (computed_from_cascaded _ _ _ _) as [style|] eqn:Es; [|done].
  simpl in E. injection E as <-. by exists parent_style, style.
Qed.

Lemma set_computed_styles_dom (cs : gmap key cascaded_style)
    (computed : gmap key style_dict) elt pt computed' :
  set_computed_styles cs computed elt pt = Ok computed' →
  dom computed' = {[(elt, pt)]} ∪ dom computed.
Proof.
  intros E. apply set_computed_styles_Ok in E as (? & ? & _ & ->).
  by rewrite dom_insert_L.
Qed.

Lemma getitem_page_types : getitem PAGE_PSEUDOCLASS_TARGETS None = Ok page_types.
Proof. vm_compute. reflexivity. Qed.

(** The key set [compute] builds, loop by loop. *)
Lemma compute_dom (document : etree) (cs : gmap key cascaded_style)
    (computed : gmap key style_dict) :
  compute document cs = Ok computed →
  dom computed
  = ⋃ ((λ page_type, {[(AtPage, Some page_type)]}) <$> page_types)
    ∪ (⋃ ((λ k : key, if is_pseudo_element_key k then {[k]} else ∅)
            <$> (map_to_list cs).*1)
       ∪ ⋃ ((λ item : list nat * etree, {[(Element item.1, None)]})
              <$> iter document)).
Proof.
  unfold compute. intros E.
  apply bind_Ok_inv in E as (c1 & E1 & E).
  apply bind_Ok_inv in E as (c2 & E2 & E).
  rewrite getitem_page_types in E.
  apply bind_Ok_inv in E as (types & [= <-] & E).
  eapply for_each_dom in E1, E2, E.
  - rewrite E, E2, E1. rewrite dom_empty_L, (right_id_L ∅ (∪)). reflexivity.
  - intros page_type s s' Hs. by apply set_computed_styles_dom in Hs.
  - intros [elt pt] s s' Hs. unfold is_pseudo_element_key. simpl.
    destruct (opt_truthy pt && negb (bool_decide (elt = AtPage))).
    + by apply set_computed_styles_dom in Hs.
    + injection Hs as <-. by rewrite (left_id_L ∅ (∪)).
  - intros [position node] s s' Hs. by apply set_computed_styles_dom in Hs.
Qed.

Lemma elem_of_union_list_fmap {A} (f : A → gset key) (l : list A) (k : key) :
  k ∈ ⋃ (f <$> l) ↔ ∃ x, x ∈ l ∧ k ∈ f x.
Proof.
  rewrite elem_of_union_list. split.
  - intros (X & HX & Hk). apply list_elem_of_fmap in HX as (x & -> & Hx).
    by exists x.
  - intros (x & Hx & Hk). exists (f x). split; [|done].
    apply list_elem_of_fmap. by exists x.
Qed.

Lemma compute_keys (document : etree) (cs : gmap key cascaded_style)
    (computed : gmap key style_dict) (k : key) :
  compute document cs = Ok computed →
  k ∈ dom computed ↔
    (∃ position, position ∈ (iter document).*1 ∧ k = (Element position, None))
    ∨ (k ∈ dom cs ∧ is_pseudo_element_key k = true)
    ∨ (∃ page_type, page_type ∈ page_types ∧ k = (AtPage, Some page_type)).
Proof.
  intros E. rewrite (compute_dom _ _ _ E).
  rewrite !elem_of_union, !elem_of_union_list_fmap. split.
  - intros [(page_type & Hin & Hk)|[(k' & Hin & Hk)|((position & node) & Hin & Hk)]].
    + right; right. exists page_type. split; [done|]. set_solver.
    + right; left. destruct (is_pseudo_element_key k') eqn:Hp; [|set_solver].
      apply elem_of_singleton in Hk as ->. split; [|done].
      apply list_elem_of_fmap in Hin as ([k1 style] & -> & Hin).
      apply elem_of_map_to_list in Hin. apply elem_of_dom. by eexists.
    + left. exists position. split; [|set_solver].
      apply list_elem_of_fmap. by exists (position, node).
  - intros [(position & Hin & ->)|[[Hin Hp]|(page_type & Hin & ->)]].
    + right; right. apply list_elem_of_fmap in Hin as ([p node] & -> & Hin).
      exists (p, node). split; [done|]. set_solver.
    + right; left. exists k. rewrite Hp. split; [|set_solver].
      apply elem_of_dom in Hin as [style Hs].
      apply list_elem_of_fmap. exists (k, style). split; [done|].
      by apply elem_of_map_to_list.
    + left. exists page_type. split; [done|]. set_solver.
Qed.

(** ** The keys of the cascaded styles *)

Lemma add_declaration_nonempty (cs : gmap key cascaded_style) name values w
    elt pt :
  all_nonempty cs → all_nonempty (add_declaration cs name values w elt pt).
Proof.
  intros Hcs k style. unfold add_declaration.
  set (style0 := default ∅ (cs !! (elt, pt))).
  destruct (style0 !! name) as [[v0 w0]|] eqn:Hname; simpl.
  - destruct (weight_le w0 w).
    + destruct (decide (k = (elt, pt))) as [->|Hne].
      * rewrite lookup_insert_eq. intros [= <-]. apply insert_non_empty.
      * rewrite !lookup_insert_ne by done. apply Hcs.
    + destruct (decide (k = (elt, pt))) as [->|Hne].
      * rewrite lookup_insert_eq. intros [= <-] Hempty.
        by rewrite Hempty, lookup_empty in Hname.
      * rewrite lookup_insert_ne by done. apply Hcs.
  - destruct (decide (k = (elt, pt))) as [->|Hne].
    + rewrite lookup_insert_eq. intros [= <-]. apply insert_non_empty.
    + rewrite !lookup_insert_ne by done. apply Hcs.
Qed.

Lemma apply_rule_nonempty (document : etree) origin r (st st' : locals) :
  all_nonempty (cascaded_styles st) →
  apply_rule document origin r st = Ok st' →
  all_nonempty (cascaded_styles st').
Proof.
  intros Hst. unfold apply_rule.
  destruct (match r with STYLE_RULE _ _ => _ | _ => _ end)
    as [[matched style]|]; [|by intros [= <-]].
  intros E. apply bind_Ok_inv in E as ([items warnings] & _ & E).
  apply bind_Ok_inv in E as (st1 & E & [= <-]).
  revert E. apply for_each_Ok_inv with (P := λ s, all_nonempty (cascaded_styles s));
    [|done].
  intros [[elt pt] spec] s s' _ Hs. unfold apply_matched. intros E.
  apply bind_Ok_inv in E as (cs & E & [= <-]). simpl.
  revert E. apply for_each_Ok_inv; [|done].
  intros [[name values] importance] c c' _ Hc. unfold apply_declaration.
  intros E. apply bind_Ok_inv in E as (precedence & _ & [= <-]).
  by apply add_declaration_nonempty.
Qed.

Lemma cascade_nonempty (document : etree) medium user_stylesheets
    ua_stylesheets (st : locals) :
  cascade document medium user_stylesheets ua_stylesheets = Ok st →
  all_nonempty (cascaded_styles st).
Proof.
  pose (P := λ s : locals, all_nonempty (cascaded_styles s)).
  unfold cascade. intros E. apply bind_Ok_inv in E as (st1 & E1 & E).
  assert (P st1) as H1.
  { revert E1. apply for_each_Ok_inv with (P := P).
    - intros [sheets origin] s s' _ Hs. unfold apply_origin.
      apply for_each_Ok_inv with (P := P); [|done].
      intros sheet t t' _ Ht. apply for_each_Ok_inv with (P := P); [|done].
      intros r u u' _ Hu. by apply apply_rule_nonempty.
    - intros k style. simpl. by rewrite lookup_empty. }
  revert E. apply for_each_Ok_inv with (P := P); [|done].
  intros [elt declarations] s s' _ Hs. unfold apply_style_attribute.
  apply for_each_Ok_inv with (P := P); [|done].
  intros [[name values] importance] t t' _ Ht E.
  apply bind_Ok_inv in E as (precedence & _ & E).
  apply bind_Ok_inv in E as (pt & _ & [= <-]).
  by apply add_declaration_nonempty.
Qed.

Lemma all_nonempty_stored (cs : gmap key cascaded_style) (k : key) :
  all_nonempty cs →
  k ∈ dom cs ↔ ∃ name, is_Some (stored cs k name).
Proof.
  intros Hcs. unfold stored. split.
  - intros [style Hk]%elem_of_dom. rewrite Hk. simpl.
    destruct (map_choose style) as (name & v & Hname); [by eapply Hcs|].
    exists name. by exists v.
  - intros (name & v & Hv). apply elem_of_dom.
    destruct (cs !! k); [by eexists|done].
Qed.

(** C10: the keys of the map [get_all_computed_styles] returns are exactly:
    (element, None) for every element of the document, whether or not it
    received a declaration; (element, pseudo_type), with a pseudo-element
    type, for the keys of that shape that hold at least one cascaded
    declaration; and ('@page', page_type) for the four page types. *)
Theorem get_all_computed_styles_keys
    (document : etree) (medium : string)
    (user_stylesheets ua_stylesheets : option (list stylesheet))
    (computed_styles : gmap key style_dict) :
  get_all_computed_styles document medium user_stylesheets ua_stylesheets
  = Ok computed_styles →
  ∃ st,
    cascade document medium user_stylesheets ua_stylesheets = Ok st
    ∧ ∀ k : key,
        k ∈ dom computed_styles ↔
          (∃ position,
              position ∈ (iter document).*1 ∧ k = (Element position, None))
          ∨ (∃ position pseudo_type,
                k = (Element position, Some pseudo_type)
                ∧ pseudo_type ≠ ""
                ∧ ∃ name, is_Some (stored (cascaded_styles st) k name))
          ∨ (∃ page_type,
                page_type ∈ page_types ∧ k = (AtPage, Some page_type)).
Proof.
  unfold get_all_computed_styles. intros E.
  apply bind_Ok_inv in E as (st & Hst & E). exists st. split; [done|].
  intros k. rewrite (compute_keys _ _ _ k E).
  pose proof (all_nonempty_stored _ k (cascade_nonempty _ _ _ _ _ Hst)) as Hk.
  assert (is_pseudo_element_key k = true ↔
          ∃ position pseudo_type,
            k = (Element position, Some pseudo_type) ∧ pseudo_type ≠ "")
    as Hpseudo.
  { destruct k as [[position|] [pt|]]; unfold is_pseudo_element_key; simpl;
      try (split; [done|by intros (? & ? & [= ] & _)]).
    - unfold str_truthy. rewrite andb_true_r, negb_true_iff, String.eqb_neq.
      split; [by exists position, pt|by intros (? & ? & [= -> ->] & ?)].
    - rewrite andb_false_r. split; [done|by intros (? & ? & [= ] & _)]. }
  split.
  - intros [H|[[Hin Hp]|H]]; [by left| |by right; right].
    right; left. apply Hpseudo in Hp as (position & pt & -> & Hne).
    exists position, pt. split; [done|]. split; [done|]. by apply Hk.
  - intros [H|[(position & pt & -> & Hne & Hname)|H]];
      [by left| |by right; right].
    right; left. split; [by apply Hk|]. apply Hpseudo. by exists position, pt.
Qed.

(** ** The styles of the pages *)

Lemma set_computed_styles_page (cs : gmap key cascaded_style)
    (computed : gmap key style_dict) (pseudo_type : option string) :
  set_computed_styles cs computed AtPage pseudo_type
  = style ← computed_from_cascaded AtPage
              (default ∅ (cs !! (AtPage, pseudo_type))) None pseudo_type;
    Ok (<[(AtPage, pseudo_type) := style]> computed).
Proof. reflexivity. Qed.

Lemma page_loop (cs : gmap key cascaded_style) (types : list string) :
  ∀ computed computed' : gmap key style_dict,
  for_each (λ page_type computed_styles,
              set_computed_styles cs computed_styles AtPage (Some page_type))
           types computed = Ok computed' →
  (∀ page_type, page_type ∈ types →
     ∃ style,
       computed_from_cascaded AtPage
         (default ∅ (cs !! (AtPage, Some page_type))) None (Some page_type)
       = Ok style
       ∧ computed' !! (AtPage, Some page_type) = Some style)
  ∧ (∀ k, (∀ page_type, page_type ∈ types → k ≠ (AtPage, Some page_type)) →
          computed' !! k = computed !! k).
Proof.
  induction types as [|x types IH]; intros computed computed' E.
  - injection E as <-. split; [|done]. intros ? Hin. by apply elem_of_nil in Hin.
  - rewrite for_each_cons in E. apply bind_Ok_inv in E as (c1 & E1 & E).
    rewrite set_computed_styles_page in E1.
    apply bind_Ok_inv in E1 as (style & Hstyle & [= <-]).
    destruct (IH _ _ E) as [Hin Hout]. split.
    + intros page_type Hpt. destruct (decide (page_type ∈ types)) as [Hl|Hl].
      * by apply Hin.
      * apply elem_of_cons in Hpt as [->|Hpt]; [|done].
        exists style. split; [done|]. rewrite Hout.
        -- by rewrite lookup_insert_eq.
        -- intros page_type Hpt [= ->]. done.
    + intros k Hk. rewrite Hout.
      * rewrite lookup_insert_ne; [done|]. intros <-. by eapply Hk; [left|].
      * intros page_type Hpt. apply Hk. by right.
Qed.

(** C8: the map [get_all_computed_styles] returns has exactly four entries
    under ['@page'], one for each of the page types left, right, first_left
    and first_right, whether or not the cascade holds anything for the page
    type.  Each is computed from the page type's cascaded style without a
    parent style: a property resolved through ['inherit'], and any property
    without a cascaded value, is specified as its initial value. *)
Theorem get_all_computed_styles_pages
    (document : etree) (medium : string)
    (user_stylesheets ua_stylesheets : option (list stylesheet))
    (computed_styles : gmap key style_dict) :
  get_all_computed_styles document medium user_stylesheets ua_stylesheets
  = Ok computed_styles →
  ∃ st,
    cascade document medium user_stylesheets ua_stylesheets = Ok st
    ∧ (∀ pseudo_type : option string,
         (AtPage, pseudo_type) ∈ dom computed_styles ↔
           pseudo_type ∈ [Some "left"; Some "right";
                          Some "first_left"; Some "first_right"])
    ∧ ∀ page_type,
        page_type ∈ ["left"; "right"; "first_left"; "first_right"] →
        let cascaded :=
          default ∅ (cascaded_styles st !! (AtPage, Some page_type)) in
        ∃ specified,
          specified_from_cascaded cascaded None = Ok specified
          ∧ computed_styles !! (AtPage, Some page_type)
            = Some (compute_values AtPage (Some page_type) specified None)
          ∧ ∀ name initial,
              INITIAL_VALUES !! name = Some initial →
              specified !! name
              = resolved (fst <$> cascaded !! name) None name initial
              ∧ (keyword_of (fst <$> cascaded !! name) name = Some "inherit" →
                 specified !! name = Some initial)
              ∧ (cascaded !! name = None → specified !! name = Some initial).
Proof.
  unfold get_all_computed_styles. intros E.
  apply bind_Ok_inv in E as (st & Hst & E). exists st. split; [done|].
  split.
  - intros pseudo_type. rewrite (compute_keys _ _ _ _ E). split.
    + intros [(? & _ & [=])|[[_ Hp]|(page_type & Hin & [= ->])]].
      * unfold is_pseudo_element_key in Hp. simpl in Hp.
        by rewrite andb_false_r in Hp.
      * change (Some page_type ∈ Some <$> page_types).
        apply list_elem_of_fmap. by exists page_type.
    + intros Hin. right; right.
      change (pseudo_type ∈ Some <$> page_types) in Hin.
      apply list_elem_of_fmap in Hin as (page_type & -> & Hin).
      by exists page_type.
  - intros page_type Hpt.
    set (cascaded := default ∅ (cascaded_styles st !! (AtPage, Some page_type))).
    unfold compute in E.
    apply bind_Ok_inv in E as (c1 & _ & E).
    apply bind_Ok_inv in E as (c2 & _ & E).
    rewrite getitem_page_types in E.
    apply bind_Ok_inv in E as (types & [= <-] & E).
    apply page_loop in E as [Hin _].
    destruct (Hin page_type Hpt) as (style & Hstyle & Hlookup).
    unfold computed_from_cascaded in Hstyle.
    apply bind_Ok_inv in Hstyle as (specified & Hspec & [= <-]).
    exists specified. split; [done|]. split; [done|].
    intros name initial Hini.
    destruct (resolve_keyword_loop None (map_to_list INITIAL_VALUES))
      with (style := (fst <$> cascaded : style_dict))
      as (specified' & E' & Hitems & _).
    { apply NoDup_fst_map_to_list. }
    { done. }
    unfold specified_from_cascaded in Hspec. fold cascaded in Hspec.
    rewrite E' in Hspec. injection Hspec as ->.
    assert (specified !! name
            = resolved (fst <$> cascaded !! name) None name initial) as Hres.
    { rewrite (Hitems name initial); [by rewrite lookup_fmap|].
      by apply elem_of_map_to_list. }
    split; [done|]. rewrite Hres. unfold resolved. split.
    + intros ->. by case_bool_decide.
    + intros ->. simpl. unfold keyword_of.
      by destruct (bool_decide (name ∈ INHERITED)).
Qed.

Lemma add_declaration_dom (cs : gmap key cascaded_style) name values w
    elt pt :
  dom (add_declaration cs name values w elt pt) = {[(elt, pt)]} ∪ dom cs.
Proof.
  unfold add_declaration. repeat case_match;
    rewrite ?dom_insert_L; by rewrite ?(assoc_L (∪)), ?(idemp_L (∪)).
Qed.

(** ** The declarations of style attributes *)

(** The weight given to a declaration of a style attribute is above that of
    any declaration of the same precedence that matched through a selector,
    the first component of a selector's specificity being 0. *)
Lemma style_attribute_outranks_selectors (precedence : option Z) (b c d : Z) :
  weight_lt (precedence, SelectorSpecificity 0 b c d)
            (precedence, SelectorSpecificity 1 0 0 0) = true.
Proof.
  unfold weight_lt, weight_cmp. simpl.
  by rewrite (proj2 (precedence_cmp_eq precedence precedence)).
Qed.

(** The key under which such a declaration goes is made of the element and
    of the variable [pseudo_type] as the rule loop left it: while no rule
    has matched, the first declaration raises. *)
Lemma apply_style_attribute_unbound (elt : element)
    (declarations : list declaration) (st : locals) :
  pseudo_type_var st = None →
  effective_declarations declarations ≠ [] →
  apply_style_attribute (elt, declarations) st = Raise UnboundLocalError.
Proof.
  intros Hvar Hdeclarations. unfold apply_style_attribute.
  destruct (effective_declarations declarations)
    as [|[[name values] importance] rest]; [done|].
  rewrite for_each_cons, Hvar.
  by rewrite declaration_precedence_author.
Qed.

Lemma apply_style_attribute_bound (elt : element)
    (declarations : list declaration) (st st' : locals)
    (pseudo_type : option string) :
  pseudo_type_var st = Some pseudo_type →
  apply_style_attribute (elt, declarations) st = Ok st' →
  dom (cascaded_styles st') ⊆ {[(elt, pseudo_type)]} ∪ dom (cascaded_styles st).
Proof.
  intros Hvar. unfold apply_style_attribute.
  pose (P := λ s : locals,
               pseudo_type_var s = Some pseudo_type
               ∧ dom (cascaded_styles s)
                 ⊆ {[(elt, pseudo_type)]} ∪ dom (cascaded_styles st)).
  intros E. cut (P st'); [by intros [_ ?]|]. revert E.
  apply for_each_Ok_inv with (P := P).
  - intros [[name values] importance] s s' _ [Hs Hdom] E.
    apply bind_Ok_inv in E as (precedence & _ & E).
    rewrite Hs in E. injection E as <-. split; [done|]. simpl.
    rewrite add_declaration_dom. intros k.
    rewrite elem_of_union, elem_of_singleton.
    intros [->|Hk]; [|by apply Hdom].
    apply elem_of_union. left. by apply elem_of_singleton.
  - split; [done|]. intros k Hk. apply elem_of_union. by right.
Qed.

(** ** The document order *)

Section etree_ind.
Variable P : etree → Prop.
Hypothesis Hnode : ∀ tag attrib children,
  Forall P children → P (Node tag attrib children).

Fixpoint etree_ind (d : etree) : P d :=
  match d with
  | Node tag attrib children =>
      Hnode tag attrib children
        ((fix all (l : list etree) : Forall P l :=
            match l with
            | [] => List.Forall_nil P
            | c :: rest => List.Forall_cons P c rest (etree_ind c) (all rest)
            end) children)
  end.
End etree_ind.

Lemma iter_from_node position tag attrib children :
  iter_from position (Node tag attrib children)
  = (position, Node tag attrib children) :: iter_children position 0 children.
Proof.
  simpl. f_equal. generalize 0%nat.
  induction children as [|c rest IH]; intros i; simpl; [done|].
  by rewrite IH.
Qed.

Lemma parents_first_mono (seen seen' positions : list (list nat)) :
  (∀ q, q ∈ seen → q ∈ seen') →
  parents_first seen positions → parents_first seen' positions.
Proof.
  revert seen seen'.
  induction positions as [|p rest IH]; intros seen seen' Hsub; [done|].
  simpl. intros [Hp Hrest]. split.
  - destruct (getparent p); [by apply Hsub|done].
  - eapply IH; [|exact Hrest].
    intros q [->|Hq]%elem_of_cons; [left|right; by apply Hsub].
Qed.

Lemma parents_first_app (seen l1 l2 : list (list nat)) :
  parents_first seen l1 →
  parents_first (reverse l1 ++ seen) l2 →
  parents_first seen (l1 ++ l2).
Proof.
  revert seen. induction l1 as [|p l1 IH]; intros seen; [done|].
  simpl. intros [Hp H1] H2. split; [done|]. apply IH; [done|].
  by rewrite reverse_cons, <- app_assoc in H2.
Qed.

Lemma iter_from_parents_first (d : etree) :
  ∀ position seen,
    match getparent position with
    | None => True
    | Some parent => parent ∈ seen
    end →
    parents_first seen (iter_from position d).*1.
Proof.
  induction d as [tag attrib children IH] using etree_ind.
  intros position seen Hposition. rewrite iter_from_node, fmap_cons.
  split; [done|]. simpl fst.
  assert (position ∈ position :: seen) as Hin by left.
  revert Hin. generalize (position :: seen). generalize 0%nat.
  induction IH as [|c rest Hc _ IHrest]; intros i seen' Hin; [done|].
  simpl. rewrite fmap_app. apply parents_first_app.
  - by apply Hc.
  - apply IHrest. apply elem_of_app. by right.
Qed.

(** ** get_all_computed_styles returns

    Once the cascade is built, the three loops that compute the styles do
    not raise: the elements come in document order, parents first, and a
    computed style has every property for its children to inherit. *)

Section Returns.

Hypothesis compute_values_keeps :
  ∀ e pt (style : style_dict) ps,
    dom style ⊆ dom (compute_values e pt style ps).

(** The style of an element is computed, and complete. *)
Definition has_style (computed : gmap key style_dict) (position : list nat)
  : Prop :=
  ∃ style, computed !! (Element position, None) = Some style ∧ complete style.

Lemma has_style_insert (computed : gmap key style_dict) (k : key) style q :
  has_style computed q →
  (k = (Element q, None) → complete style) →
  has_style (<[k := style]> computed) q.
Proof.
  intros (old & Hold & Hcomplete) Hk.
  destruct (decide (k = (Element q, None))) as [->|Hne].
  - exists style. by rewrite lookup_insert_eq; auto.
  - exists old. by rewrite lookup_insert_ne.
Qed.

Lemma set_computed_styles_element (cs : gmap key cascaded_style)
    (computed : gmap key style_dict) (position : list nat) :
  set_computed_styles cs computed (Element position) None
  = parent_style ←
      match getparent position with
      | None => Ok None
      | Some parent => Some <$> getitem computed (Element parent, None)
      end;
    style ← computed_from_cascaded (Element position)
              (default ∅ (cs !! (Element position, None))) parent_style None;
    Ok (<[(Element position, None) := style]> computed).
Proof. reflexivity. Qed.

Lemma set_computed_styles_pseudo_element (cs : gmap key cascaded_style)
    (computed : gmap key style_dict) (position : list nat)
    (pseudo_type : option string) :
  opt_truthy pseudo_type = true →
  set_computed_styles cs computed (Element position) pseudo_type
  = parent_style ← Some <$> getitem computed (Element position, None);
    style ← computed_from_cascaded (Element position)
              (default ∅ (cs !! (Element position, pseudo_type)))
              parent_style pseudo_type;
    Ok (<[(Element position, pseudo_type) := style]> computed).
Proof. intros Hpt. unfold set_computed_styles. by rewrite Hpt. Qed.

Lemma elements_loop (cs : gmap key cascaded_style)
    (items : list (list nat * etree)) :
  ∀ seen (computed : gmap key style_dict),
    parents_first seen items.*1 →
    (∀ q, q ∈ seen → has_style computed q) →
    ∃ computed',
      for_each (λ '(position, _) computed_styles,
                  set_computed_styles cs computed_styles
                                      (Element position) None)
               items computed = Ok computed'
      ∧ ∀ q, q ∈ seen ∨ q ∈ items.*1 → has_style computed' q.
Proof.
  induction items as [|[p node] items IH]; intros seen computed Hfirst Hseen.
  - exists computed. split; [done|]. intros q [Hq|Hq]; [by apply Hseen|].
    by apply elem_of_nil in Hq.
  - destruct Hfirst as [Hp Hrest]. simpl in Hp, Hrest.
    assert (∃ parent_style,
              match getparent p with
              | None => Ok None
              | Some parent =>
                  Some <$> getitem computed (Element parent, None)
              end = Ok parent_style
              ∧ parent_complete parent_style) as (parent_style & E1 & Hparent).
    { destruct (getparent p) as [parent|]; [|by exists None].
      destruct (Hseen parent Hp) as (style & Hstyle & Hcomplete).
      exists (Some style). unfold getitem. by rewrite Hstyle. }
    destruct (computed_from_cascaded_Ok (Element p)
                (default ∅ (cs !! (Element p, None))) parent_style None
                compute_values_keeps Hparent) as (style & E2 & Hcomplete).
    destruct (IH (p :: seen) (<[(Element p, None) := style]> computed) Hrest)
      as (computed' & E & Hafter).
    { intros q Hq. destruct (decide (q = p)) as [->|Hne].
      - exists style. by rewrite lookup_insert_eq.
      - apply elem_of_cons in Hq as [->|Hq]; [done|].
        apply has_style_insert; [by apply Hseen|]. by intros [= ->]. }
    exists computed'. split.
    + rewrite for_each_cons, set_computed_styles_element, E1. simpl.
      rewrite E2. exact E.
    + intros q [Hq|Hq]; apply Hafter.
      * left. by right.
      * rewrite fmap_cons in Hq. apply elem_of_cons in Hq as [->|Hq];
          [left; left|by right].
Qed.

Lemma pseudo_elements_loop (cs : gmap key cascaded_style)
    (known : list (list nat)) (keys : list key) :
  (∀ k position, k ∈ keys → k.1 = Element position → position ∈ known) →
  ∀ computed : gmap key style_dict,
    (∀ q, q ∈ known → has_style computed q) →
    ∃ computed',
      for_each (λ '(elt, pseudo_type) computed_styles,
                  if opt_truthy pseudo_type
                     && negb (bool_decide (elt = AtPage))
                  then set_computed_styles cs computed_styles elt pseudo_type
                  else Ok computed_styles)
               keys computed = Ok computed'.
Proof.
  induction keys as [|[elt pt] keys IH]; intros Hkeys computed Hknown.
  - by exists computed.
  - rewrite for_each_cons.
    assert (∀ k position, k ∈ keys → k.1 = Element position →
                          position ∈ known) as Hkeys'.
    { intros k position Hk. apply Hkeys. by right. }
    destruct (opt_truthy pt && negb (bool_decide (elt = AtPage))) eqn:Hpseudo.
    + apply andb_true_iff in Hpseudo as [Hpt Helt].
      destruct elt as [position|]; [|done].
      destruct (Hknown position) as (parent & Hparent & Hcomplete).
      { eapply Hkeys; [left|done]. }
      destruct (computed_from_cascaded_Ok (Element position)
                  (default ∅ (cs !! (Element position, pt))) (Some parent) pt
                  compute_values_keeps Hcomplete) as (style & E & _).
      destruct (IH Hkeys' (<[(Element position, pt) := style]> computed))
        as (computed' & E').
      { intros q Hq. apply has_style_insert; [by apply Hknown|].
        intros [= -> ->]. done. }
      exists computed'. rewrite set_computed_styles_pseudo_element by done.
      unfold getitem. rewrite Hparent. simpl. rewrite E. exact E'.
    + destruct (IH Hkeys' computed Hknown) as (computed' & E).
      by exists computed'.
Qed.

Lemma pages_loop (cs : gmap key cascaded_style) (types : list string) :
  ∀ computed : gmap key style_dict,
    ∃ computed',
      for_each (λ page_type computed_styles,
                  set_computed_styles cs computed_styles AtPage
                                      (Some page_type))
               types computed = Ok computed'.
Proof.
  induction types as [|page_type types IH]; intros computed.
  - by exists computed.
  - destruct (computed_from_cascaded_Ok AtPage
                (default ∅ (cs !! (AtPage, Some page_type))) None
                (Some page_type) compute_values_keeps I) as (style & E & _).
    destruct (IH (<[(AtPage, Some page_type) := style]> computed))
      as (computed' & E').
    exists computed'. rewrite for_each_cons, set_computed_styles_page, E.
    exact E'.
Qed.

Lemma compute_returns (document : etree) (cs : gmap key cascaded_style) :
  (∀ k position, k ∈ dom cs → k.1 = Element position →
                 position ∈ (iter document).*1) →
  ∃ computed_styles, compute document cs = Ok computed_styles.
Proof.
  intros Hkeys. unfold compute.
  destruct (elements_loop cs (iter document) [] ∅) as (c1 & E1 & H1).
  { by apply iter_from_parents_first. }
  { intros q Hq. by apply elem_of_nil in Hq. }
  destruct (pseudo_elements_loop cs (iter document).*1
              (map_to_list cs).*1) with (computed := c1) as (c2 & E2).
  { intros k position Hk. apply Hkeys.
    apply list_elem_of_fmap in Hk as ([k' style] & -> & Hk).
    apply elem_of_map_to_list in Hk. apply elem_of_dom. by eexists. }
  { intros q Hq. apply H1. by right. }
  destruct (pages_loop cs page_types c2) as (c3 & E3).
  exists c3. rewrite E1. simpl. rewrite E2. simpl.
  rewrite getitem_page_types. exact E3.
Qed.

(** The selectors' callables give elements of the document they are applied
    to. *)
Hypothesis CSSSelector_in_document :
  ∀ parsed selector_callable (document : etree) position,
    CSSSelector parsed = Ok selector_callable →
    position ∈ selector_callable document →
    position ∈ (iter document).*1.

Definition in_document (document : etree) (elt : element) : Prop :=
  ∀ position, elt = Element position → position ∈ (iter document).*1.

Lemma compile_selectors_in_document (document : etree) selector_list selectors :
  compile_selectors selector_list = Ok (inl selectors) →
  Forall (λ '(selector_callable, _, _),
            ∀ position, position ∈ selector_callable document →
                        position ∈ (iter document).*1) selectors.
Proof.
  revert selectors.
  induction selector_list as [|sel rest IH]; intros selectors; simpl.
  - intros [= <-]. constructor.
  - destruct (selector_to_xpath sel) as [[pt callable]|[]] eqn:E; try done.
    destruct (compile_selectors rest) as [[compiled|w]|]; simpl; try done.
    intros [= <-]. constructor; [|by apply IH].
    intros position Hin. unfold selector_to_xpath in E.
    destruct (match cssselect_parse (selectorText sel) with
              | Pseudo _ _ => _ | _ => _ end) as [pt' parsed].
    apply bind_Ok_inv in E as (f & Hf & [= -> ->]).
    by eapply CSSSelector_in_document.
Qed.

Lemma match_selectors_in_document (document : etree) selector_list items
    warnings :
  match_selectors document selector_list = Ok (items, warnings) →
  Forall (λ item : matched_item, in_document document item.1.1) items.
Proof.
  unfold match_selectors. intros E.
  apply bind_Ok_inv in E as ([selectors|w] & Hcompiled & E).
  - injection E as <- <-.
    apply (compile_selectors_in_document document) in Hcompiled.
    induction Hcompiled as [|[[callable pt] spec] selectors Hc _ IH];
      simpl; [constructor|].
    apply Forall_app. split; [|done]. apply Forall_map.
    apply Forall_forall. intros position Hin q [= <-]. by apply Hc.
  - injection E as <- <-. constructor.
Qed.

Lemma match_page_selector_in_document (document : etree) text items warnings :
  match_page_selector text = Ok (items, warnings) →
  Forall (λ item : matched_item, in_document document item.1.1) items.
Proof.
  unfold match_page_selector. intros E.
  apply bind_Ok_inv in E as (n & _ & E).
  destruct (PAGE_PSEUDOCLASS_TARGETS !! _) as [types|];
    injection E as <- <-; [|constructor].
  apply Forall_map, Forall_forall. by intros page_type _ q [=].
Qed.

Lemma find_style_attributes_in_document (document : etree) :
  Forall (λ item, in_document document item.1)
         (find_style_attributes document).
Proof.
  unfold find_style_attributes. apply Forall_forall.
  intros [elt declarations] Hin.
  apply list_elem_of_omap in Hin as ([position node] & Hin & Hsome).
  destruct (node_get "style" node) as [text|]; [|done].
  destruct (str_truthy text); [|done]. injection Hsome as <- <-.
  intros q [= <-]. apply list_elem_of_fmap. by exists (position, node).
Qed.

Lemma cascade_in_document (document : etree) medium user_stylesheets
    ua_stylesheets (st : locals) :
  cascade document medium user_stylesheets ua_stylesheets = Ok st →
  ∀ k, k ∈ dom (cascaded_styles st) → in_document document k.1.
Proof.
  pose (Q := λ cs : gmap key cascaded_style,
               ∀ k, k ∈ dom cs → in_document document k.1).
  pose (P := λ s : locals, Q (cascaded_styles s)).
  assert (∀ cs name values w elt pt,
            Q cs → in_document document elt →
            Q (add_declaration cs name values w elt pt)) as Hadd.
  { intros cs name values w elt pt Hcs Helt k.
    rewrite add_declaration_dom, elem_of_union, elem_of_singleton.
    intros [->|Hk]; [done|by apply Hcs]. }
  unfold cascade. intros E. change (P st).
  apply bind_Ok_inv in E as (st1 & E1 & E).
  assert (P st1) as H1.
  { revert E1. apply for_each_Ok_inv with (P := P).
    - intros [sheets origin] s s' _ Hs. unfold apply_origin.
      apply for_each_Ok_inv with (P := P); [|done].
      intros sheet t t' _ Ht. apply for_each_Ok_inv with (P := P); [|done].
      intros r u u' _ Hu. unfold apply_rule.
      destruct (match r with STYLE_RULE _ _ => _ | _ => _ end)
        as [[matched style]|] eqn:Hselected; [|by intros [= <-]].
      intros Er. apply bind_Ok_inv in Er as ([items warnings] & Hitems & Er).
      apply bind_Ok_inv in Er as (u1 & Er & [= <-]).
      assert (Forall (λ item : matched_item, in_document document item.1.1)
                     items) as Hin.
      { destruct r; try done; injection Hselected as <- <-.
        - by eapply match_selectors_in_document.
        - by eapply match_page_selector_in_document. }
      revert Er. apply for_each_Ok_inv with (P := P); [|done].
      intros [[elt pt] spec] v v' Hitem Hv. unfold apply_matched. intros Em.
      apply bind_Ok_inv in Em as (cs & Em & [= <-]).
      change (Q cs). revert Em. apply for_each_Ok_inv with (P := Q); [|done].
      intros [[name values] importance] c c' _ Hc. unfold apply_declaration.
      intros Ed. apply bind_Ok_inv in Ed as (precedence & _ & [= <-]).
      apply Hadd; [done|].
      by apply (proj1 (Forall_forall _ _) Hin (elt, pt, spec)).
    - intros k Hk. simpl in Hk. by rewrite dom_empty_L in Hk. }
  revert E. apply for_each_Ok_inv with (P := P); [|done].
  intros [elt declarations] s s' Hitem Hs. unfold apply_style_attribute.
  apply for_each_Ok_inv with (P := P); [|done].
  intros [[name values] importance] t t' _ Ht Ed.
  apply bind_Ok_inv in Ed as (precedence & _ & Ed).
  apply bind_Ok_inv in Ed as (pt & _ & [= <-]).
  apply Hadd; [done|].
  by apply (proj1 (Forall_forall _ _)
              (find_style_attributes_in_document document)
              (elt, declarations)).
Qed.

(** X15: when building the cascade does not raise, the function returns a map:
    the computation of the styles cannot fail. *)
Lemma get_all_computed_styles_returns (document : etree) medium
    user_stylesheets ua_stylesheets (st : locals) :
  cascade document medium user_stylesheets ua_stylesheets = Ok st →
  ∃ computed_styles,
    get_all_computed_styles document medium user_stylesheets ua_stylesheets
    = Ok computed_styles.
Proof.
  intros E. unfold get_all_computed_styles. rewrite E.
  apply compute_returns. intros k position Hk Hposition.
  by eapply cascade_in_document.
Qed.

End Returns.

(** * More of the module *)

(** ** effective_rules *)

(** The rules that [effective_rules] passes through: "normal" rulesets,
    @font-face, @namespace, @page and @variables. *)
Definition passes_through (r : rule) : bool :=
  match r with
  | CHARSET_RULE | COMMENT | IMPORT_RULE _ _ | MEDIA_RULE _ _ => false
  | _ => true
  end.

Section rule_ind.
Variable P : rule → Prop.
Hypothesis Hcharset : P CHARSET_RULE.
Hypothesis Hcomment : P COMMENT.
Hypothesis Himport : ∀ media cssRules,
  Forall P cssRules → P (IMPORT_RULE media cssRules).
Hypothesis Hmedia : ∀ media cssRules,
  Forall P cssRules → P (MEDIA_RULE media cssRules).
Hypothesis Hstyle : ∀ selectorList style, P (STYLE_RULE selectorList style).
Hypothesis Hpage : ∀ selector_text style, P (PAGE_RULE selector_text style).
Hypothesis Hother : P OTHER_RULE.

Fixpoint rule_ind (r : rule) : P r :=
  let all :=
    fix all (l : list rule) : Forall P l :=
      match l with
      | [] => List.Forall_nil P
      | c :: rest => List.Forall_cons P c rest (rule_ind c) (all rest)
      end in
  match r with
  | CHARSET_RULE => Hcharset
  | COMMENT => Hcomment
  | IMPORT_RULE media cssRules => Himport media cssRules (all cssRules)
  | MEDIA_RULE media cssRules => Hmedia media cssRules (all cssRules)
  | STYLE_RULE selectorList style => Hstyle selectorList style
  | PAGE_RULE selector_text style => Hpage selector_text style
  | OTHER_RULE => Hother
  end.
End rule_ind.

Lemma Forall_flat_map {A B} (Q : B → Prop) (f : A → list B) (l : list A) :
  Forall (λ x, Forall Q (f x)) l → Forall Q (flat_map f l).
Proof.
  induction 1 as [|x l Hx _ IH]; simpl; [constructor|].
  apply Forall_app. by split.
Qed.

Lemma effective_rule_passes_through (medium : string) (r : rule) :
  Forall (λ r', passes_through r' = true) (effective_rule medium r).
Proof.
  induction r as [| |media cssRules IH|media cssRules IH| | |] using rule_ind;
    simpl; try by repeat constructor.
  - destruct (evaluate_media_query media medium); [|constructor].
    by apply Forall_flat_map.
  - destruct (evaluate_media_query media medium); [|constructor].
    by apply Forall_flat_map.
Qed.

Lemma flat_map_effective_rule_fixed (medium : string) (rules : list rule) :
  Forall (λ r, passes_through r = true) rules →
  flat_map (effective_rule medium) rules = rules.
Proof.
  induction 1 as [|r rules Hr _ IH]; simpl; [done|].
  rewrite IH. by destruct r.
Qed.

(** X1: what [effective_rules] yields holds no @charset rule, comment, @import
    rule or @media rule any more, at any depth of nesting in the sheet; and
    resolving what it yielded once more, as the rules of a sheet with the
    same media, changes nothing. *)
Theorem effective_rules_resolved (sheet : stylesheet) (medium : string) :
  Forall (λ r, passes_through r = true) (effective_rules sheet medium)
  ∧ effective_rules {| sheet_media := sheet_media sheet;
                       sheet_cssRules := effective_rules sheet medium |}
                    medium
    = effective_rules sheet medium.
Proof.
  assert (Forall (λ r, passes_through r = true) (effective_rules sheet medium))
    as Hpass.
  { unfold effective_rules.
    destruct (evaluate_media_query (sheet_media sheet) medium); [|constructor].
    apply Forall_flat_map, Forall_forall. intros r _.
    apply effective_rule_passes_through. }
  split; [done|]. unfold effective_rules at 1. simpl.
  destruct (evaluate_media_query (sheet_media sheet) medium) eqn:Hmedia.
  - by apply flat_map_effective_rule_fixed.
  - unfold effective_rules. by rewrite Hmedia.
Qed.


(** ** effective_declarations *)

(** A triple is yielded exactly when some declaration of the block expands
    to its name and values, and it carries that declaration's priority: a
    declaration that expands to nothing leaves no trace, and costs the others
    nothing. *)
Lemma effective_declarations_spec (declaration_block : list declaration)
    (name : string) (values : value) (importance : string) :
  (name, values, importance) ∈ effective_declarations declaration_block
  ↔ ∃ declared_name propertyValue,
      (declared_name, propertyValue, importance) ∈ declaration_block
      ∧ (name, values) ∈ validate_and_expand declared_name propertyValue.
Proof.
  unfold effective_declarations.
  rewrite list_elem_of_In, in_flat_map. split.
  - intros ([[declared_name propertyValue] priority] & Hin & Hexp).
    apply in_map_iff in Hexp as ([n v] & [= -> -> ->] & Hexp).
    exists declared_name, propertyValue.
    by rewrite !list_elem_of_In.
  - intros (declared_name & propertyValue & Hin & Hexp).
    exists (declared_name, propertyValue, importance).
    rewrite list_elem_of_In in Hin. split; [done|].
    apply in_map_iff. exists (name, values).
    by rewrite list_elem_of_In in Hexp.
Qed.

(** ** The order on weights is transitive *)

(** Three comparisons [x ? y], [y ? z], [x ? z] that fit together. *)
Definition fits (c1 c2 c3 : comparison) : Prop :=
  (c1 = Lt → c2 = Lt → c3 = Lt)
  ∧ (c1 = Eq → c3 = c2)
  ∧ (c2 = Eq → c3 = c1).

Lemma fits_lex c1 c2 c3 d1 d2 d3 :
  fits c1 c2 c3 → fits d1 d2 d3 → fits (lex c1 d1) (lex c2 d2) (lex c3 d3).
Proof.
  intros (Hc1 & Hc2 & Hc3) (Hd1 & Hd2 & Hd3).
  destruct c1; [rewrite (Hc2 eq_refl)| |];
    (destruct c2; [rewrite ?(Hc3 eq_refl)| |]); simpl;
    try rewrite (Hc1 eq_refl eq_refl); simpl;
    repeat split; try done; auto.
Qed.

Lemma fits_Z (x y z : Z) : fits (x ?= y)%Z (y ?= z)%Z (x ?= z)%Z.
Proof.
  repeat split.
  - rewrite !Z.compare_lt_iff. lia.
  - intros ->%Z.compare_eq_iff. done.
  - intros ->%Z.compare_eq_iff. done.
Qed.

Lemma fits_precedence (p q r : option Z) :
  fits (precedence_cmp p q) (precedence_cmp q r) (precedence_cmp p r).
Proof. destruct p, q, r; simpl; try apply fits_Z; by repeat split. Qed.

Lemma fits_specificity (s t u : specificity_value) :
  fits (specificity_cmp s t) (specificity_cmp t u) (specificity_cmp s u).
Proof.
  destruct s, t, u; simpl; try apply fits_Z; try by repeat split.
  repeat apply fits_lex; apply fits_Z.
Qed.

Lemma fits_weight (u v w : weight) :
  fits (weight_cmp u v) (weight_cmp v w) (weight_cmp u w).
Proof. apply fits_lex; [apply fits_precedence|apply fits_specificity]. Qed.

Lemma weight_le_trans (u v w : weight) :
  weight_le u v = true → weight_le v w = true → weight_le u w = true.
Proof.
  unfold weight_le. destruct (fits_weight u v w) as (H1 & H2 & H3).
  destruct (weight_cmp u v); [rewrite (H2 eq_refl)| |]; try done.
  destruct (weight_cmp v w); [by rewrite (H3 eq_refl)| |]; try done.
  by rewrite (H1 eq_refl eq_refl).
Qed.

Lemma weight_lt_le_trans (u v w : weight) :
  weight_lt u v = true → weight_le v w = true → weight_lt u w = true.
Proof.
  unfold weight_lt, weight_le. destruct (fits_weight u v w) as (H1 & H2 & H3).
  destruct (weight_cmp u v); try done.
  destruct (weight_cmp v w); [by rewrite (H3 eq_refl)| |]; try done.
  by rewrite (H1 eq_refl eq_refl).
Qed.

Lemma weight_not_le_lt (v w : weight) :
  weight_le v w = false → weight_lt w v = true.
Proof.
  unfold weight_le, weight_lt. rewrite (weight_cmp_opp v w).
  by destruct (weight_cmp v w).
Qed.

(** ** add_declaration, continued *)

(** The entry of a key after [add_declaration]. *)
Lemma lookup_add_declaration (cs : gmap key cascaded_style) name values w
    elt pt (k : key) :
  add_declaration cs name values w elt pt !! k
  = if decide (k = (elt, pt)) then
      let style := default ∅ (cs !! k) in
      Some (if match snd <$> style !! name with
               | None => true
               | Some previous => weight_le previous w
               end
            then <[name := (values, w)]> style
            else style)
    else cs !! k.
Proof.
  unfold add_declaration. destruct (decide (k = (elt, pt))) as [->|Hne].
  - simpl. case_match; by rewrite !lookup_insert_eq.
  - case_match; by rewrite !lookup_insert_ne.
Qed.

(** X3: declaring the same thing twice is declaring it once. *)
Theorem add_declaration_idempotent (cs : gmap key cascaded_style)
    (name : string) (values : value) (w : weight)
    (elt : element) (pseudo_type : option string) :
  add_declaration (add_declaration cs name values w elt pseudo_type)
                  name values w elt pseudo_type
  = add_declaration cs name values w elt pseudo_type.
Proof.
  apply map_eq. intros k. rewrite !lookup_add_declaration.
  destruct (decide (k = (elt, pseudo_type))) as [->|Hne]; [|done].
  simpl. f_equal.
  set (style := default ∅ (cs !! (elt, pseudo_type))).
  destruct (style !! name) as [[v0 w0]|] eqn:Hname; simpl.
  - destruct (weight_le w0 w) eqn:Hle.
    + rewrite lookup_insert_eq. simpl. rewrite weight_le_refl.
      by rewrite insert_insert_eq.
    + rewrite Hname. simpl. by rewrite Hle.
  - rewrite lookup_insert_eq. simpl. rewrite weight_le_refl.
    by rewrite insert_insert_eq.
Qed.

(** X4: [add_declaration] touches one property of one key: the map's keys grow
    by that key at most, and whatever is stored for another key, or for
    another property of the key, stays. *)
Theorem add_declaration_frame (cs : gmap key cascaded_style)
    (name : string) (values : value) (w : weight)
    (elt : element) (pseudo_type : option string)
    (k : key) (other : string) :
  dom (add_declaration cs name values w elt pseudo_type)
  = {[(elt, pseudo_type)]} ∪ dom cs
  ∧ ((k, other) = ((elt, pseudo_type), name)
     ∨ stored (add_declaration cs name values w elt pseudo_type) k other
       = stored cs k other).
Proof.
  split; [apply add_declaration_dom|].
  destruct (decide ((k, other) = ((elt, pseudo_type), name))) as [|Hne];
    [by left|right].
  by apply stored_add_declaration_other.
Qed.

(** X5: declarations on different properties, or under different keys, can be
    processed in either order: the resulting maps are equal. *)
Theorem add_declaration_commutes (cs : gmap key cascaded_style)
    (name1 name2 : string) (values1 values2 : value) (w1 w2 : weight)
    (elt1 elt2 : element) (pt1 pt2 : option string) :
  ((elt1, pt1), name1) ≠ ((elt2, pt2), name2) →
  add_declaration (add_declaration cs name1 values1 w1 elt1 pt1)
                  name2 values2 w2 elt2 pt2
  = add_declaration (add_declaration cs name2 values2 w2 elt2 pt2)
                    name1 values1 w1 elt1 pt1.
Proof.
  intros Hne. apply map_eq. intros k. rewrite !lookup_add_declaration.
  destruct (decide (k = (elt2, pt2))) as [->|H2];
    destruct (decide ((elt2, pt2) = (elt1, pt1))) as [E|H1];
    try done.
  - (* the same key, two properties *)
    assert (name1 ≠ name2) as Hname by congruence.
    simpl. f_equal.
    set (style := default ∅ (cs !! (elt2, pt2))).
    set (b1 := match snd <$> style !! name1 with
               | None => true
               | Some previous => weight_le previous w1
               end).
    set (b2 := match snd <$> style !! name2 with
               | None => true
               | Some previous => weight_le previous w2
               end).
    destruct b1 eqn:Hb1, b2 eqn:Hb2; simpl;
      rewrite ?lookup_insert_ne by done; fold b1 b2; rewrite ?Hb1, ?Hb2;
      try done.
    by apply insert_insert_ne.
Qed.

(** X6: [add_declaration] removes nothing and never lowers a weight: what was
    stored for a property is still there, or gave way to a declaration at
    least as heavy. *)
Theorem add_declaration_monotone (cs : gmap key cascaded_style)
    (name : string) (values : value) (w : weight)
    (elt : element) (pseudo_type : option string)
    (k : key) (other : string) (values0 : value) (w0 : weight) :
  stored cs k other = Some (values0, w0) →
  ∃ values1 w1,
    stored (add_declaration cs name values w elt pseudo_type) k other
    = Some (values1, w1)
    ∧ weight_le w0 w1 = true.
Proof.
  intros Hstored.
  destruct (decide ((k, other) = ((elt, pseudo_type), name))) as [[= -> ->]|Hne].
  - rewrite stored_add_declaration_same, Hstored.
    destruct (weight_le w0 w) eqn:Hle.
    + by exists values, w.
    + exists values0, w0. by rewrite weight_le_refl.
  - rewrite stored_add_declaration_other by done.
    exists values0, w0. by rewrite weight_le_refl.
Qed.

(** *** A whole run of declarations *)

(** The declarations of one property under one key, processed in order. *)
Definition add_declarations (cs : gmap key cascaded_style) (name : string)
    (elt : element) (pseudo_type : option string)
    (declared : list (value * weight)) : gmap key cascaded_style :=
  fold_left (λ cs '(values, w), add_declaration cs name values w elt pseudo_type)
            declared cs.

(** X7: of any number of declarations of a property under a key, processed in
    turn on a map that holds nothing yet for the property, the one
    stored in the end is as heavy as any of them, and it is the last one of
    that weight: every later one is strictly lighter. *)
Theorem add_declarations_winner (cs : gmap key cascaded_style)
    (name : string) (elt : element) (pseudo_type : option string)
    (declared : list (value * weight)) :
  stored cs (elt, pseudo_type) name = None →
  declared ≠ [] →
  ∃ earlier values w later,
    declared = earlier ++ (values, w) :: later
    ∧ stored (add_declarations cs name elt pseudo_type declared)
             (elt, pseudo_type) name
      = Some (values, w)
    ∧ Forall (λ d, weight_le d.2 w = true) earlier
    ∧ Forall (λ d, weight_lt d.2 w = true) later.
Proof.
  intros Hnone. unfold add_declarations.
  induction declared as [|[values w] declared IH] using rev_ind; [done|].
  intros _. rewrite fold_left_app. simpl.
  rewrite stored_add_declaration_same.
  destruct declared as [|d declared'] eqn:Hdeclared.
  - simpl. rewrite Hnone. exists [], values, w, []. by repeat split.
  - rewrite <- Hdeclared in *.
    destruct IH as (earlier & values0 & w0 & later & Hsplit & Hstored & He & Hl);
      [by rewrite Hdeclared|].
    rewrite Hstored. destruct (weight_le w0 w) eqn:Hle.
    + exists declared, values, w, []. split; [done|]. split; [done|].
      split; [|constructor]. rewrite Hsplit.
      apply Forall_app. split; [|constructor; [done|]].
      * eapply Forall_impl; [exact He|]. intros x Hx. simpl in Hx.
        by eapply weight_le_trans.
      * eapply Forall_impl; [exact Hl|]. intros x Hx. simpl in Hx.
        apply weight_lt_le. by eapply weight_lt_le_trans.
    + exists earlier, values0, w0, (later ++ [(values, w)]).
      split; [by rewrite Hsplit, <- app_assoc|]. split; [done|].
      split; [done|]. apply Forall_app. split; [done|].
      constructor; [|constructor]. by apply weight_not_le_lt.
Qed.

(** ** Origin and importance before specificity *)

(** X8: whatever the specificities: a stored declaration gives way to one of a
    higher precedence, and holds against one of a lower precedence.  So a
    user-agent declaration replaces no author or user declaration, and an
    important user declaration replaces any other. *)
Theorem precedence_outranks_specificity (cs cs' : gmap key cascaded_style)
    (origin importance name : string) (values values0 : value)
    (elt : element) (pseudo_type : option string)
    (spec spec0 : specificity_value) (precedence precedence0 : Z) :
  stored cs (elt, pseudo_type) name
  = Some (values0, (Some precedence0, spec0)) →
  declaration_precedence origin importance = Ok (Some precedence) →
  apply_declaration origin elt pseudo_type spec (name, values, importance) cs
  = Ok cs' →
  ((precedence0 < precedence)%Z →
   stored cs' (elt, pseudo_type) name
   = Some (values, (Some precedence, spec)))
  ∧ ((precedence < precedence0)%Z →
     stored cs' (elt, pseudo_type) name
     = Some (values0, (Some precedence0, spec0))).
Proof.
  intros Hstored Hprecedence. unfold apply_declaration.
  rewrite Hprecedence. simpl. intros [= <-].
  rewrite stored_add_declaration_same, Hstored.
  unfold weight_le, weight_cmp. simpl.
  destruct (Z.compare_spec precedence0 precedence) as [->|Hlt|Hgt]; simpl.
  - split; intros; lia.
  - split; [done|]. intros; lia.
  - split; [intros; lia|done].
Qed.

(** ** Matching *)

(** The pseudo-element type that [selector_to_xpath] returns is [None] or
    one of the four identifiers of [PSEUDO_ELEMENTS], which is then taken off
    the selector; any other selector is compiled whole. *)
Lemma selector_to_xpath_pseudo_type (sel : selector)
    (pseudo_type : option string)
    (selector_callable : etree → list (list nat)) :
  selector_to_xpath sel = Ok (pseudo_type, selector_callable) →
  match pseudo_type with
  | Some ident =>
      ident ∈ PSEUDO_ELEMENTS
      ∧ ∃ element_part,
          cssselect_parse (selectorText sel) = Pseudo element_part ident
          ∧ CSSSelector element_part = Ok selector_callable
  | None =>
      CSSSelector (cssselect_parse (selectorText sel)) = Ok selector_callable
  end.
Proof.
  unfold selector_to_xpath.
  destruct (cssselect_parse (selectorText sel)) as [element_part ident|text].
  - case_bool_decide as Hident; intros E;
      apply bind_Ok_inv in E as (f & Hf & [= <- <-]); [|done].
    split; [done|]. by exists element_part.
  - intros E. by apply bind_Ok_inv in E as (f & Hf & [= <- <-]).
Qed.

Lemma compile_selectors_catches (selector_list : list selector) :
  compile_selectors selector_list ≠ Raise ExpressionError.
Proof.
  induction selector_list as [|sel rest IH]; simpl; [done|].
  destruct (selector_to_xpath sel) as [[pt callable]|[]]; try done.
  destruct (compile_selectors rest) as [compiled|e]; [done|].
  simpl. congruence.
Qed.

Lemma compile_selectors_items (selector_list : list selector) selectors :
  compile_selectors selector_list = Ok (inl selectors) →
  Forall2 (λ sel '(selector_callable, pseudo_type, spec),
             selector_to_xpath sel = Ok (pseudo_type, selector_callable)
             ∧ spec = specificity_of sel)
          selector_list selectors.
Proof.
  revert selectors.
  induction selector_list as [|sel rest IH]; intros selectors; simpl.
  - intros [= <-]. constructor.
  - destruct (selector_to_xpath sel) as [[pt callable]|[]] eqn:E; try done.
    destruct (compile_selectors rest) as [[compiled|w]|]; simpl; try done.
    intros [= <-]. constructor; [done|]. by apply IH.
Qed.

(** [match_selectors] never lets an [ExpressionError] out: the exception of
    an unsupported selector ends as a warning. *)
Lemma match_selectors_catches (document : etree)
    (selector_list : list selector) :
  match_selectors document selector_list ≠ Raise ExpressionError.
Proof.
  unfold match_selectors.
  pose proof (compile_selectors_catches selector_list) as Hcatch.
  destruct (compile_selectors selector_list) as [[selectors|w]|e]; simpl;
    congruence.
Qed.

(** X9: the first selector of the list that raises [ExpressionError], after
    selectors that compiled, ends the function: nothing is yielded, not even
    for the selectors before it, the warning names it, and the selectors
    after it are not looked at. *)
Theorem match_selectors_first_unsupported (document : etree)
    (before after : list selector) (sel : selector) :
  Forall (λ s, is_Ok (selector_to_xpath s) = true) before →
  selector_to_xpath sel = Raise ExpressionError →
  match_selectors document (before ++ sel :: after)
  = Ok ([], [UnsupportedSelector (selectorText sel)]).
Proof.
  intros Hbefore Hsel. unfold match_selectors.
  assert (compile_selectors (before ++ sel :: after)
          = Ok (inr (UnsupportedSelector (selectorText sel)))) as ->; [|done].
  induction Hbefore as [|s rest Hs _ IH]; simpl.
  - by rewrite Hsel.
  - destruct (selector_to_xpath s) as [[pt callable]|]; [|done].
    by rewrite IH.
Qed.

(** X10: what [match_selectors] yields comes from the selectors of the list: each
    item is an element that the callable of one of the selectors gives for
    the document, with that selector's specificity and pseudo-element type,
    which is [None] or one of the four of [PSEUDO_ELEMENTS]; and items are
    only yielded when no warning was logged, that is when every selector of
    the list compiled. *)
Theorem match_selectors_items (document : etree)
    (selector_list : list selector)
    (items : list matched_item) (warnings : list warning) :
  match_selectors document selector_list = Ok (items, warnings) →
  (items = [] ∨ warnings = [])
  ∧ Forall (λ item : matched_item,
              ∃ sel selector_callable position,
                sel ∈ selector_list
                ∧ selector_to_xpath sel = Ok (item.1.2, selector_callable)
                ∧ position ∈ selector_callable document
                ∧ item = (Element position, item.1.2, specificity_of sel)
                ∧ (item.1.2 = None
                   ∨ ∃ ident, ident ∈ PSEUDO_ELEMENTS
                              ∧ item.1.2 = Some ident))
           items.
Proof.
  unfold match_selectors. intros E.
  apply bind_Ok_inv in E as ([selectors|w] & Hcompiled & E);
    injection E as <- <-; [|split; [by left|constructor]].
  split; [by right|].
  apply compile_selectors_items in Hcompiled.
  induction Hcompiled as [|sel [[callable pt] spec] rest selectors
                            [Hsel ->] _ IH]; simpl; [constructor|].
  apply Forall_app. split.
  - apply Forall_map, Forall_forall. intros position Hposition.
    exists sel, callable, position. simpl. split; [left|].
    repeat (split; [done|]).
    pose proof (selector_to_xpath_pseudo_type _ _ _ Hsel) as Hpt.
    destruct pt as [ident|]; [right|by left].
    exists ident. by destruct Hpt.
  - eapply Forall_impl; [exact IH|].
    intros item (sel' & callable' & position & Hin & Hrest).
    exists sel', callable', position. split; [by right|done].
Qed.

(** X11: [match_page_selector] returns only for the four supported selectors, and
    then it logs nothing and yields at least one item, each for ['@page'] and
    one of the four page types: its warning about an unsupported selector is
    never logged. *)
Theorem match_page_selector_returns (selector : string)
    (items : list matched_item) (warnings : list warning) :
  match_page_selector selector = Ok (items, warnings) →
  selector ∈ [""; ":left"; ":right"; ":first"]
  ∧ warnings = []
  ∧ items ≠ []
  ∧ Forall (λ item : matched_item,
              item.1.1 = AtPage
              ∧ ∃ page_type, page_type ∈ page_types
                             ∧ item.1.2 = Some page_type)
           items.
Proof.
  intros E.
  assert (selector ∈ [""; ":left"; ":right"; ":first"]) as Hin.
  { destruct (decide (selector = "")) as [->|H0]; [left|].
    destruct (decide (selector = ":left")) as [->|H1]; [right; left|].
    destruct (decide (selector = ":right")) as [->|H2];
      [right; right; left|].
    destruct (decide (selector = ":first")) as [->|H3];
      [right; right; right; left|].
    by rewrite match_page_selector_unsupported in E. }
  split; [done|].
  repeat (apply elem_of_cons in Hin as [->|Hin]);
    [..|by apply elem_of_nil in Hin];
    vm_compute in E; injection E as <- <-;
    (split; [done|]); (split; [done|]);
    repeat (constructor; [split; [done|]; eexists; split; [|done];
                          unfold page_types; set_solver|]);
    constructor.
Qed.

(** ** computed_from_cascaded, continued *)

(** X12: without a parent style (the root element, a page) the resolution cannot
    fail, whatever the cascaded style and the tables; the specified style has
    the properties of the fixed set and those of the cascaded style, and a
    cascaded property that is not in the fixed set is handed on as it is. *)
Theorem computed_from_cascaded_root (elt : element)
    (cascaded : cascaded_style) (pseudo_type : option string) :
  ∃ specified,
    specified_from_cascaded cascaded None = Ok specified
    ∧ computed_from_cascaded elt cascaded None pseudo_type
      = Ok (compute_values elt pseudo_type specified None)
    ∧ dom specified = dom INITIAL_VALUES ∪ dom cascaded
    ∧ ∀ name, INITIAL_VALUES !! name = None →
              specified !! name = fst <$> cascaded !! name.
Proof.
  destruct (resolve_keyword_loop None (map_to_list INITIAL_VALUES))
    with (style := (fst <$> cascaded : style_dict))
    as (specified & E & Hitems & Hrest); [apply NoDup_fst_map_to_list|done|].
  assert (∀ name, INITIAL_VALUES !! name = None →
                  specified !! name = fst <$> cascaded !! name) as Hother.
  { intros name Hnone. rewrite Hrest; [by rewrite lookup_fmap|].
    intros ([n i] & -> & Hin)%list_elem_of_fmap.
    apply elem_of_map_to_list in Hin. simpl in Hnone. congruence. }
  exists specified. unfold computed_from_cascaded, specified_from_cascaded.
  rewrite E. split; [done|]. split; [done|]. split; [|done].
  apply set_eq. intros name. rewrite elem_of_union, !elem_of_dom.
  destruct (INITIAL_VALUES !! name) as [initial|] eqn:Hini.
  - split; [by left; eexists|]. intros _.
    rewrite (Hitems name initial) by by apply elem_of_map_to_list.
    destruct (resolved_is_Some ((fst <$> cascaded : style_dict) !! name)
                None name initial) as [Hnone Hsome]; [done|].
    destruct ((fst <$> cascaded : style_dict) !! name) eqn:Hc;
      [apply Hsome; by eexists|by apply Hnone].
  - rewrite (Hother name Hini), fmap_is_Some.
    split; [by right|]. by intros [[]|].
Qed.

Lemma resolve_keyword_Ok_other parent_style name initial (style style' : style_dict) :
  resolve_keyword parent_style (name, initial) style = Ok style' →
  ∀ name', name' ≠ name → style' !! name' = style !! name'.
Proof.
  unfold resolve_keyword. intros E name' Hne.
  repeat case_match; try done;
    try (injection E as <-; by rewrite ?lookup_insert_ne);
    apply bind_Ok_inv in E as (inherited & _ & [= <-]);
    by rewrite lookup_insert_ne.
Qed.

Lemma resolve_keyword_Ok_inherit (ps style style' : style_dict) name initial :
  resolve_keyword (Some ps) (name, initial) style = Ok style' →
  keyword_of (style !! name) name = Some "inherit" →
  is_Some (ps !! name).
Proof.
  unfold resolve_keyword, keyword_of. intros E Hkeyword.
  rewrite Hkeyword in E. simpl in E. unfold getitem in E.
  destruct (ps !! name); [by eexists|done].
Qed.

Lemma resolve_keyword_errors (ps style : style_dict) item e :
  resolve_keyword (Some ps) item style = Raise e → e = KeyError.
Proof.
  destruct item as [name initial]. unfold resolve_keyword, getitem.
  repeat case_match; simpl; congruence.
Qed.

Lemma resolve_keyword_loop_inherit (ps : style_dict)
    (items : list (string * value)) :
  NoDup items.*1 →
  ∀ style style' : style_dict,
    for_each (resolve_keyword (Some ps)) items style = Ok style' →
    ∀ name initial, (name, initial) ∈ items →
      keyword_of (style !! name) name = Some "inherit" →
      is_Some (ps !! name).
Proof.
  induction items as [|[n i] items IH]; intros Hnodup style style' E name initial Hin.
  - by apply elem_of_nil in Hin.
  - apply NoDup_cons in Hnodup as [Hfresh Hnodup].
    rewrite for_each_cons in E. apply bind_Ok_inv in E as (s1 & E1 & E).
    apply elem_of_cons in Hin as [[= -> ->]|Hin].
    + by eapply resolve_keyword_Ok_inherit.
    + assert (name ≠ n) as Hne.
      { intros ->. apply Hfresh. apply list_elem_of_fmap.
        by exists (n, initial). }
      rewrite <- (resolve_keyword_Ok_other _ _ _ _ _ E1 name Hne).
      by eapply IH.
Qed.

Lemma resolve_keyword_loop_errors (ps : style_dict)
    (items : list (string * value)) :
  ∀ (style : style_dict) e,
    for_each (resolve_keyword (Some ps)) items style = Raise e →
    e = KeyError.
Proof.
  induction items as [|item items IH]; intros style e; [done|].
  rewrite for_each_cons.
  destruct (resolve_keyword (Some ps) item style) as [s1|e1] eqn:E1; simpl.
  - apply IH.
  - intros [= <-]. by eapply resolve_keyword_errors.
Qed.

(** X13: a property that resolves through ['inherit'] (by its cascaded value, or
    by default for an inherited property) is looked up in the parent style:
    when the parent style does not have it, [computed_from_cascaded] raises
    [KeyError]. *)
Theorem computed_from_cascaded_missing_in_parent (elt : element)
    (cascaded : cascaded_style) (parent_style : style_dict)
    (pseudo_type : option string) (name : string) (initial : value) :
  INITIAL_VALUES !! name = Some initial →
  keyword_of (fst <$> cascaded !! name) name = Some "inherit" →
  parent_style !! name = None →
  computed_from_cascaded elt cascaded (Some parent_style) pseudo_type
  = Raise KeyError.
Proof.
  intros Hini Hkeyword Hmissing.
  unfold computed_from_cascaded, specified_from_cascaded.
  destruct (for_each _ _ _) as [specified|e] eqn:E; simpl.
  - eapply resolve_keyword_loop_inherit in E;
      [|apply NoDup_fst_map_to_list|by apply elem_of_map_to_list
       |by rewrite lookup_fmap].
    rewrite Hmissing in E. by destruct E.
  - f_equal. by eapply resolve_keyword_loop_errors.
Qed.

(** ** set_computed_styles, continued *)

(** X14: the style of a parent is read from [computed_styles]: for an element
    that is not the root, and for a pseudo-element, [set_computed_styles]
    raises [KeyError] when the style of the parent element (the element
    itself for a pseudo-element) was not computed before. *)
Theorem set_computed_styles_parent_first
    (cs : gmap key cascaded_style) (computed_styles : gmap key style_dict)
    (position parent : list nat) (pseudo_type : option string) :
  (if opt_truthy pseudo_type then Some position else getparent position)
  = Some parent →
  computed_styles !! (Element parent, None) = None →
  set_computed_styles cs computed_styles (Element position) pseudo_type
  = Raise KeyError.
Proof.
  intros Hparent Hmissing. unfold set_computed_styles.
  rewrite Hparent. unfold getitem. by rewrite Hmissing.
Qed.

(** ** Document order, continued *)

Lemma iter_from_suffix (d : etree) :
  ∀ position p, p ∈ (iter_from position d).*1 → ∃ q, p = q ++ position.
Proof.
  induction d as [tag attrib children IH] using etree_ind.
  intros position p. rewrite iter_from_node, fmap_cons.
  intros [->|Hp]%elem_of_cons; [by exists []|].
  revert Hp. generalize 0%nat.
  induction IH as [|c rest Hc _ IHrest]; intros i; simpl.
  - by intros ?%elem_of_nil.
  - rewrite fmap_app. intros [Hp|Hp]%elem_of_app; [|by eapply IHrest].
    destruct (Hc _ _ Hp) as [q ->]. exists (q ++ [i]).
    by rewrite <- app_assoc.
Qed.

Lemma iter_children_index (children : list etree) :
  ∀ position i p,
    p ∈ (iter_children position i children).*1 →
    ∃ q j, i ≤ j ∧ p = q ++ j :: position.
Proof.
  induction children as [|c rest IH]; intros position i p; simpl.
  - by intros ?%elem_of_nil.
  - rewrite fmap_app. intros [Hp|Hp]%elem_of_app.
    + destruct (iter_from_suffix _ _ _ Hp) as [q ->]. by exists q, i.
    + destruct (IH _ _ _ Hp) as (q & j & Hj & ->). exists q, j. split; [lia|done].
Qed.

Lemma iter_from_NoDup (d : etree) :
  ∀ position, NoDup (iter_from position d).*1.
Proof.
  induction d as [tag attrib children IH] using etree_ind.
  intros position. rewrite iter_from_node, fmap_cons. apply NoDup_cons. split.
  - intros (q & j & _ & Hq)%iter_children_index.
    apply (f_equal length) in Hq. rewrite length_app in Hq. simpl in Hq. lia.
  - generalize 0%nat.
    induction IH as [|c rest Hc _ IHrest]; intros i; simpl; [constructor|].
    rewrite fmap_app. apply NoDup_app. split; [apply Hc|].
    split; [|apply IHrest].
    intros p [q ->]%iter_from_suffix (q' & j & Hj & Hq)%iter_children_index.
    apply app_inj_2 in Hq as [_ [= ->]]; [lia|done].
Qed.

(** ** The styles of the returned map *)

(** The parent whose style an element, or a pseudo-element, inherits from. *)
Definition parent_of (position : list nat) (pseudo_type : option string)
  : option (list nat) :=
  if opt_truthy pseudo_type then Some position else getparent position.

(** In [computed_styles], the style under the key is the one computed from
    the key's cascaded style and from the style that [computed_styles] has
    for the parent. *)
Definition wired (cs : gmap key cascaded_style)
    (computed_styles : gmap key style_dict)
    (position : list nat) (pseudo_type : option string) : Prop :=
  ∃ style,
    computed_styles !! (Element position, pseudo_type) = Some style
    ∧ match parent_of position pseudo_type with
      | None =>
          computed_from_cascaded (Element position)
            (default ∅ (cs !! (Element position, pseudo_type)))
            None pseudo_type = Ok style
      | Some parent =>
          ∃ parent_style,
            computed_styles !! (Element parent, None) = Some parent_style
            ∧ computed_from_cascaded (Element position)
                (default ∅ (cs !! (Element position, pseudo_type)))
                (Some parent_style) pseudo_type = Ok style
      end.

Lemma set_computed_styles_wired (cs : gmap key cascaded_style)
    (computed computed' : gmap key style_dict) position pseudo_type :
  set_computed_styles cs computed (Element position) pseudo_type
  = Ok computed' →
  parent_of position pseudo_type ≠ Some position ∨ pseudo_type ≠ None →
  wired cs computed' position pseudo_type
  ∧ (∃ style,
       computed' = <[(Element position, pseudo_type) := style]> computed)
  ∧ match parent_of position pseudo_type with
    | None => True
    | Some parent => is_Some (computed !! (Element parent, None))
    end.
Proof.
  unfold set_computed_styles, wired. fold (parent_of position pseudo_type).
  intros E Hparent.
  destruct (parent_of position pseudo_type) as [parent|] eqn:Hp.
  - apply bind_Ok_inv in E as (parent_style & E1 & E).
    unfold getitem in E1.
    destruct (computed !! (Element parent, None)) as [ps|] eqn:Hps; [|done].
    injection E1 as <-.
    apply bind_Ok_inv in E as (style & E2 & [= <-]).
    rewrite lookup_insert_eq. split; [|by split; eexists].
    exists style. split; [done|]. exists ps. split; [|done].
    rewrite lookup_insert_ne; [done|]. intros [= -> ->]. by destruct Hparent.
  - simpl in E. apply bind_Ok_inv in E as (style & E2 & [= <-]).
    rewrite lookup_insert_eq. split; [|by split; [eexists|]].
    by exists style.
Qed.

Lemma wired_insert (cs : gmap key cascaded_style)
    (computed : gmap key style_dict) (k : key) style position pseudo_type :
  wired cs computed position pseudo_type →
  k ≠ (Element position, pseudo_type) →
  (∀ parent, parent_of position pseudo_type = Some parent →
             k ≠ (Element parent, None)) →
  wired cs (<[k := style]> computed) position pseudo_type.
Proof.
  intros (old & Hold & Hparent) Hk Hkp. exists old.
  rewrite lookup_insert_ne by done. split; [done|].
  destruct (parent_of position pseudo_type) as [parent|]; [|done].
  destruct Hparent as (ps & Hps & Hstyle). exists ps.
  rewrite lookup_insert_ne; [done|]. by apply Hkp.
Qed.

Lemma getparent_neq (position : list nat) : getparent position ≠ Some position.
Proof.
  destruct position as [|i p]; [done|]. simpl. intros [= E].
  apply (f_equal length) in E. simpl in E. lia.
Qed.

(** The first loop: every element it went through is wired to its parent,
    which it went through before. *)
Lemma elements_wired (cs : gmap key cascaded_style)
    (items : list (list nat * etree)) :
  ∀ seen (computed computed' : gmap key style_dict),
    NoDup (items.*1 ++ seen) →
    parents_first seen items.*1 →
    (∀ q, q ∈ seen →
          wired cs computed q None
          ∧ ∀ parent, getparent q = Some parent → parent ∈ seen) →
    for_each (λ '(position, _) computed_styles,
                set_computed_styles cs computed_styles
                                    (Element position) None)
             items computed = Ok computed' →
    ∀ q, q ∈ seen ∨ q ∈ items.*1 → wired cs computed' q None.
Proof.
  induction items as [|[p node] items IH];
    intros seen computed computed' Hnodup Hfirst Hseen E.
  - injection E as <-. intros q [Hq|Hq]; [by apply Hseen|].
    by apply elem_of_nil in Hq.
  - rewrite for_each_cons in E. apply bind_Ok_inv in E as (c1 & E1 & E).
    rewrite fmap_cons in Hnodup. simpl in Hnodup.
    apply NoDup_cons in Hnodup as [Hfresh Hnodup].
    destruct Hfirst as [Hp Hrest]. simpl in Hp, Hrest.
    apply set_computed_styles_wired in E1 as (Hwired & [style ->] & _);
      [|left; apply getparent_neq].
    intros q Hq. eapply (IH (p :: seen)); [| |  |exact E|].
    + rewrite <- Permutation_middle. by apply NoDup_cons.
    + done.
    + intros r [->|Hr]%elem_of_cons.
      * split; [done|]. intros parent Hparent. rewrite Hparent in Hp.
        by right.
      * destruct (Hseen r Hr) as [Hw Hpar]. split.
        -- apply wired_insert; [done| |].
           ++ intros [= ->]. apply Hfresh, elem_of_app. by right.
           ++ intros parent Hparent [= ->]. apply Hfresh, elem_of_app.
              right. by apply Hpar.
        -- intros parent Hparent. right. by apply Hpar.
    + rewrite fmap_cons in Hq. simpl in Hq. rewrite elem_of_cons in *.
      tauto.
Qed.

Lemma wired_insert_other (cs : gmap key cascaded_style)
    (computed : gmap key style_dict) (k : key) style position pseudo_type :
  wired cs computed position pseudo_type →
  k ≠ (Element position, pseudo_type) →
  (∀ q, k ≠ (Element q, None)) →
  wired cs (<[k := style]> computed) position pseudo_type.
Proof. intros Hw Hk Hq. apply wired_insert; [done..|]. intros parent _. apply Hq. Qed.

Lemma opt_truthy_Some (pseudo_type : option string) :
  opt_truthy pseudo_type = true → pseudo_type ≠ None.
Proof. by destruct pseudo_type. Qed.

(** The second loop: every pseudo-element it went through is wired to its
    element. *)
Lemma pseudo_elements_wired (cs : gmap key cascaded_style) (keys : list key) :
  ∀ (seen : list key) (computed computed' : gmap key style_dict),
    NoDup (keys ++ seen) →
    (∀ position pseudo_type,
       (Element position, pseudo_type) ∈ seen →
       opt_truthy pseudo_type = true →
       wired cs computed position pseudo_type) →
    for_each (λ '(elt, pseudo_type) computed_styles,
                if opt_truthy pseudo_type && negb (bool_decide (elt = AtPage))
                then set_computed_styles cs computed_styles elt pseudo_type
                else Ok computed_styles)
             keys computed = Ok computed' →
    ∀ position pseudo_type,
      (Element position, pseudo_type) ∈ seen
      ∨ (Element position, pseudo_type) ∈ keys →
      opt_truthy pseudo_type = true →
      wired cs computed' position pseudo_type.
Proof.
  induction keys as [|[elt pt0] keys IH];
    intros seen computed computed' Hnodup Hseen E.
  - injection E as <-. intros position pt [Hin|Hin]; [by apply Hseen|].
    by apply elem_of_nil in Hin.
  - rewrite for_each_cons in E. apply bind_Ok_inv in E as (c1 & E1 & E).
    simpl in Hnodup. apply NoDup_cons in Hnodup as [Hfresh Hnodup].
    assert (∀ position pseudo_type,
              (Element position, pseudo_type) ∈ (elt, pt0) :: seen →
              opt_truthy pseudo_type = true →
              wired cs c1 position pseudo_type) as Hseen1.
    { destruct elt as [p0|]; simpl in E1.
      - destruct (opt_truthy pt0) eqn:Hpt0; simpl in E1.
        + apply set_computed_styles_wired in E1 as (Hwired & [style ->] & _);
            [|right; by apply opt_truthy_Some].
          intros position pt [[= -> ->]|Hin]%elem_of_cons Hpt; [done|].
          apply wired_insert_other; [by apply Hseen| |].
          * intros [= -> ->]. apply Hfresh, elem_of_app. by right.
          * intros q [= -> ->]. done.
        + injection E1 as <-.
          intros position pt [[= -> ->]|Hin]%elem_of_cons Hpt;
            [congruence|by apply Hseen].
      - rewrite andb_false_r in E1. injection E1 as <-.
        intros position pt [[=]|Hin]%elem_of_cons Hpt. by apply Hseen. }
    intros position pt Hin. eapply (IH ((elt, pt0) :: seen)); [| |exact E|].
    + rewrite <- Permutation_middle. by apply NoDup_cons.
    + done.
    + rewrite elem_of_cons in *. tauto.
Qed.

(** X16: every style that [get_all_computed_styles] returns for an element or a
    pseudo-element is the one [computed_from_cascaded] gives for the key's
    cascaded style and the style returned for the parent: the parent element
    for an element (none for the root), the element itself for one of its
    pseudo-elements. *)
Theorem get_all_computed_styles_inherits (document : etree) (medium : string)
    (user_stylesheets ua_stylesheets : option (list stylesheet))
    (st : locals) (computed_styles : gmap key style_dict)
    (position : list nat) (pseudo_type : option string) :
  cascade document medium user_stylesheets ua_stylesheets = Ok st →
  get_all_computed_styles document medium user_stylesheets ua_stylesheets
  = Ok computed_styles →
  (Element position, pseudo_type) ∈ dom computed_styles →
  wired (cascaded_styles st) computed_styles position pseudo_type.
Proof.
  intros Hst. unfold get_all_computed_styles. rewrite Hst. simpl.
  set (cs := cascaded_styles st). intros E Hkey.
  apply (compute_keys _ _ _ _ E) in Hkey.
  unfold compute in E.
  apply bind_Ok_inv in E as (c1 & E1 & E).
  apply bind_Ok_inv in E as (c2 & E2 & E).
  rewrite getitem_page_types in E.
  apply bind_Ok_inv in E as (types & [= <-] & E3).
  pose (P := λ c : gmap key style_dict,
          wired cs c position pseudo_type).
  assert (∀ s s' page_type,
            P s → set_computed_styles cs s AtPage (Some page_type) = Ok s' →
            P s') as Hpage.
  { intros s s' page_type Hs Es.
    apply set_computed_styles_Ok in Es as (? & ? & _ & ->).
    by apply wired_insert_other. }
  destruct Hkey as [(q & Hq & [= -> ->])|[[Hin Hp]|(page_type & _ & [=])]].
  - assert (P c1) as H1.
    { eapply (elements_wired cs (iter document) []); [| | |exact E1|by right].
      - rewrite app_nil_r. apply iter_from_NoDup.
      - by apply iter_from_parents_first.
      - by intros ? ?%elem_of_nil. }
    assert (P c2) as H2.
    { revert E2. apply for_each_Ok_inv with (P := P); [|done].
      intros [elt pt] s s' _ Hs.
      destruct (opt_truthy pt && negb (bool_decide (elt = AtPage))) eqn:Hk;
        [|by intros [= <-]].
      apply andb_true_iff in Hk as [Hpt%opt_truthy_Some _]. intros Es.
      apply set_computed_styles_Ok in Es as (? & ? & _ & ->).
      apply wired_insert_other; [done|congruence|congruence]. }
    revert E3. apply for_each_Ok_inv with (P := P); [|done].
    intros page_type s s' _. apply Hpage.
  - unfold is_pseudo_element_key in Hp. simpl in Hp.
    apply andb_true_iff in Hp as [Hpt _].
    assert (P c2) as H2.
    { eapply (pseudo_elements_wired cs _ []); [| |exact E2| |done].
      - rewrite app_nil_r. apply NoDup_fst_map_to_list.
      - by intros ? ? ?%elem_of_nil.
      - right. apply elem_of_dom in Hin as [style Hs].
        apply list_elem_of_fmap. exists (Element position, pseudo_type, style).
        split; [done|]. by apply elem_of_map_to_list. }
    revert E3. apply for_each_Ok_inv with (P := P); [|done].
    intros page_type s s' _. apply Hpage.
Qed.

(** ** The elements of find_style_attributes *)

Lemma omap_fst_sublist {A B C} (f : A → option (B * C)) (g : A → B)
    (l : list A) :
  (∀ x y, f x = Some y → y.1 = g x) →
  (omap f l).*1 `sublist_of` g <$> l.
Proof.
  intros Hf. induction l as [|x l IH]; simpl; [done|].
  destruct (f x) as [y|] eqn:Hx; simpl.
  - rewrite (Hf _ _ Hx). by apply sublist_skip.
  - by apply sublist_cons.
Qed.

(** X17: [find_style_attributes] yields elements of the document in document
    order, none of them twice: the elements that have a style attribute
    which is not the empty string, each with its parsed attribute. *)
Theorem find_style_attributes_elements (document : etree) :
  (find_style_attributes document).*1
    `sublist_of` Element <$> (iter document).*1
  ∧ NoDup (find_style_attributes document).*1
  ∧ ∀ position declarations,
      (Element position, declarations) ∈ find_style_attributes document
      ↔ ∃ node style_attribute,
          (position, node) ∈ iter document
          ∧ node_get "style" node = Some style_attribute
          ∧ style_attribute ≠ ""
          ∧ declarations = parseStyle style_attribute.
Proof.
  assert ((find_style_attributes document).*1
            `sublist_of` Element <$> (iter document).*1) as Hsub.
  { rewrite <- list_fmap_compose. apply omap_fst_sublist.
    intros [position node] y. destruct (node_get "style" node); [|done].
    destruct (str_truthy _); [|done]. by intros [= <-]. }
  split; [done|]. split.
  - eapply sublist_NoDup; [|exact Hsub].
    apply NoDup_fmap; [by intros ? ? [=]|]. apply iter_from_NoDup.
  - intros position declarations. unfold find_style_attributes.
    rewrite list_elem_of_omap. split.
    + intros ([p node] & Hin & Hsome).
      destruct (node_get "style" node) as [text|] eqn:Hget; [|done].
      destruct (str_truthy text) eqn:Htext; [|done].
      injection Hsome as <- <-. exists node, text. repeat split; try done.
      intros ->. done.
    + intros (node & text & Hin & Hget & Htext & ->).
      exists (position, node). split; [done|]. rewrite Hget.
      destruct text; [done|]. done.
Qed.

(** ** The declarations of style attributes, continued *)


(** X19: without a style rule or a page rule that matched before, the variable
    [pseudo_type] is unbound when the style attributes are gone through:
    when there is no stylesheet at all and some style attribute holds a
    valid declaration, [get_all_computed_styles] raises
    [UnboundLocalError]. *)
Theorem style_attributes_without_stylesheets (document : etree)
    (medium : string) (user_stylesheets ua_stylesheets : option (list stylesheet))
    (elt : element) (declarations : list declaration) :
  find_stylesheets document = [] →
  default [] user_stylesheets = [] →
  default [] ua_stylesheets = [] →
  (elt, declarations) ∈ find_style_attributes document →
  effective_declarations declarations ≠ [] →
  get_all_computed_styles document medium user_stylesheets ua_stylesheets
  = Raise UnboundLocalError.
Proof.
  intros Hauthor Huser Hua Hin Hdeclarations.
  unfold get_all_computed_styles, cascade.
  rewrite Hauthor, Huser, Hua. simpl.
  set (st0 := {| cascaded_styles := ∅; pseudo_type_var := None; log := [] |}).
  assert (for_each apply_style_attribute (find_style_attributes document) st0
          = Raise UnboundLocalError) as ->; [|done].
  induction (find_style_attributes document) as [|[e d] items IH];
    [by apply elem_of_nil in Hin|].
  rewrite for_each_cons.
  destruct (decide (effective_declarations d = [])) as [Hd|Hd].
  - assert (apply_style_attribute (e, d) st0 = Ok st0) as ->.
    { unfold apply_style_attribute. by rewrite Hd. }
    simpl. apply IH. apply elem_of_cons in Hin as [[= -> ->]|Hin]; [|done].
    done.
  - by rewrite apply_style_attribute_unbound.
Qed.
End Cascade.

(** * StyleDict

    The dict subclass of the computed styles: [style.font_size] stands for
    [style['font-size']].  The two methods are modelled as Python calls
    them: [__setattr__] on every attribute assignment, [__getattr__] when
    the regular attribute lookup found nothing. *)

Module StyleDict.

Import Stdlib.Strings.Ascii.

(** What [__getattr__] raises, with its argument. *)
Inductive attribute_error := AttributeError (key : string).

(** [key.replace(old, new)] for one-character strings. *)
Fixpoint replace (old new : Ascii.ascii) (key : string) : string :=
  match key with
  | EmptyString => EmptyString
  | String c rest =>
      String (if Ascii.eqb c old then new else c) (replace old new rest)
  end.

Section Methods.

Context {value : Type}.

Definition __getattr__ (self : gmap string value) (key : string)
  : value + attribute_error :=
  match getitem self (replace "_"%char "-"%char key) with
  | Ok v => inl v
  | Raise _ => inr (AttributeError key)
  end.

Definition __setattr__ (self : gmap string value) (key : string) (v : value)
  : gmap string value :=
  <[replace "_"%char "-"%char key := v]> self.

Lemma replace_idemp (key : string) :
  replace "_"%char "-"%char (replace "_"%char "-"%char key) = replace "_"%char "-"%char key.
Proof.
  induction key as [|c rest IH]; [done|]. simpl. rewrite IH. f_equal.
  destruct (Ascii.eqb c "_"%char) eqn:Hc; [done|]. by rewrite Hc.
Qed.

(** X20: an attribute that was set is read back under every name that differs
    from the one it was set under by [_] against [-] only, the name of the
    property among them; the other attributes read as before, and raise
    [AttributeError] with the name asked for when the dict has no such
    item. *)
Theorem setattr_getattr (self : gmap string value) (key key' : string)
    (v : value) :
  __getattr__ (__setattr__ self key v) key'
  = (if decide (replace "_"%char "-"%char key = replace "_"%char "-"%char key') then inl v
     else __getattr__ self key')
  ∧ __getattr__ (__setattr__ self key v) (replace "_"%char "-"%char key) = inl v
  ∧ (__getattr__ self key' = inr (AttributeError key')
     ↔ self !! replace "_"%char "-"%char key' = None).
Proof.
  unfold __getattr__, __setattr__, getitem. repeat split.
  - destruct (decide _) as [->|Hne].
    + by rewrite lookup_insert_eq.
    + by rewrite lookup_insert_ne.
  - by rewrite replace_idemp, lookup_insert_eq.
  - by destruct (self !! _).
  - by intros ->.
Qed.

End Methods.

End StyleDict.

(** * Box trees and their normalisation

    The passes [inline_in_block] and [block_in_inline] live in
    weasy/formatting_structure/build.py and the boxes in
    weasy/formatting_structure/boxes.py; this part is modelled from the
    specification (sections 3, 4.5 and 4.6) and checked against the trees
    that weasy/tests/test_boxes.py expects. *)

(** Modelled from the spec: the classes of boxes.py that own children, by
    the names the data model gives the box variants (a TextBox and a
    ReplacedBox own none). *)
Inductive box_type :=
| Block
| Inline
| InlineBlock
| Line
| AnonymousBlock
| Page.

Section Build.

(** The element references that boxes carry. *)
Context {E : Type}.

(** Modelled from the spec: the box of boxes.py, a tagged variant in which
    every box but a text box and a replaced box owns an ordered sequence of
    children.  A box carries its element, as the tests' [serialize] shows it
    for anonymous and line boxes too; the style is left out, the passes
    neither read nor change it. *)
Local Unset Elimination Schemes.
Inductive box :=
| TextBox (element : E) (text : string)
| ReplacedBox (element : E)
| ParentBox (type : box_type) (element : E) (children : list box).
Local Set Elimination Schemes.

(** Modelled from the spec: the inline-level boxes of boxes.py: text,
    replaced content, inline boxes and inline blocks.  The block-level boxes
    are the block boxes and the anonymous block boxes; a line box is neither
    inline-level nor block-level. *)
Definition is_inline_level (b : box) : bool :=
  match b with
  | TextBox _ _ | ReplacedBox _ | ParentBox (Inline | InlineBlock) _ _ => true
  | _ => false
  end.

(** Modelled from the spec: the block containers of boxes.py, whose children
    must be all block-level or all inline-level.  The tests show the children
    of an inline block wrapped in a line box like those of a block. *)
Definition is_block_container (type : box_type) : bool :=
  match type with
  | Block | AnonymousBlock | InlineBlock => true
  | _ => false
  end.

(** ** inline_in_block (section 4.5) *)

(** Modelled from the spec: the synthesized pair of build.py's
    [inline_in_block], an anonymous block box holding one line box holding
    the run; both carry the container's element. *)
Definition anonymous_line (element : E) (run : list box) : box :=
  ParentBox AnonymousBlock element [ParentBox Line element run].

(** Modelled from the spec: the end of a run in build.py's
    [inline_in_block]; an empty run leaves nothing. *)
Definition flush (element : E) (run : list box) : list box :=
  match run with
  | [] => []
  | _ => [anonymous_line element run]
  end.

(** Modelled from the spec: the scan of build.py's [inline_in_block] over a
    container's children, which gathers each maximal run of consecutive
    inline-level children and wraps it, in place, between the other children.
    A child that is not inline-level (a block-level box, or a line box that
    is there already) ends the run and is kept as it is. *)
Fixpoint wrap_runs (element : E) (run children : list box) : list box :=
  match children with
  | [] => flush element run
  | child :: rest =>
      if is_inline_level child then wrap_runs element (run ++ [child]) rest
      else flush element run ++ child :: wrap_runs element [] rest
  end.

(** Modelled from the spec: what build.py's [inline_in_block] makes of a
    block container's children: a single line box when all of them are
    inline-level, the wrapped runs otherwise; nothing for no children. *)
Definition wrap_children (element : E) (children : list box) : list box :=
  match children with
  | [] => []
  | _ =>
      if forallb is_inline_level children
      then [ParentBox Line element children]
      else wrap_runs element [] children
  end.

(** Modelled from the spec: [inline_in_block] of build.py, bottom-up: the
    children first, then the box itself if it is a block container. *)
Fixpoint inline_in_block (b : box) : box :=
  match b with
  | ParentBox type element children =>
      let children := map inline_in_block children in
      ParentBox type element
        (if is_block_container type then wrap_children element children
         else children)
  | _ => b
  end.

(** ** block_in_inline (section 4.6) *)

(** Modelled from the spec: the result of build.py's left-to-right scan of
    the content of a line box or of an inline box: the content before the
    first block-level box, then each block-level box with the content that
    follows it up to the next one. *)
Definition scan : Type := list box * list (box * list box).

(** Modelled from the spec: build.py's scan meeting a box that stays in the
    line: it joins the content accumulated in front of what follows. *)
Definition cons_inline (c : box) (s : scan) : scan := (c :: s.1, s.2).

(** Modelled from the spec: build.py's scan meeting a block-level box: the
    content before it is empty so far, what followed now follows the
    block. *)
Definition cons_block (b : box) (s : scan) : scan := ([], (b, s.1) :: s.2).

(** Modelled from the spec: the fragments of an inline box that build.py
    splits around the blocks found inside it, from the first block on.  Each
    piece of content between two blocks becomes a fragment of the inline box,
    an empty one for an empty piece; the fragment after the last block
    continues with what follows the inline box ([s]). *)
Fixpoint graft_blocks (wrap : list box → box) (b : box) (t : list box)
    (more : list (box * list box)) (s : scan) : list (box * list box) :=
  match more with
  | [] => (b, wrap t :: s.1) :: s.2
  | (b', t') :: more' => (b, [wrap t]) :: graft_blocks wrap b' t' more' s
  end.

(** Modelled from the spec: build.py's scan meeting an inline box whose
    content splits as [t], followed by [s].  Without a block inside, the
    inline box stays whole; otherwise its "before" fragment ends the content
    before the first block. *)
Definition graft (wrap : list box → box) (t s : scan) : scan :=
  match t.2 with
  | [] => (wrap t.1 :: s.1, s.2)
  | (b, t1) :: more => ([wrap t.1], graft_blocks wrap b t1 more s)
  end.

(** Modelled from the spec: the anonymous block box / line box pair that
    build.py's [block_in_inline] emits for a piece of a line.  The tests show
    both with the element of the line's container, which is the line's own
    element after [inline_in_block]. *)
Definition anonymous_fragment (container_element line_element : E)
    (content : list box) : box :=
  ParentBox AnonymousBlock container_element
            [ParentBox Line line_element content].

(** Modelled from the spec: build.py emitting the content accumulated before
    a block "if non-empty". *)
Definition fragment_unless_empty (container_element line_element : E)
    (content : list box) : list box :=
  match content with
  | [] => []
  | _ => [anonymous_fragment container_element line_element content]
  end.

(** Modelled from the spec: what build.py emits after a block: the content
    up to the next block if there is any, the next block, and so on; the
    content after the last block is emitted even when it is empty. *)
Fixpoint emit_after (container_element line_element : E) (t : list box)
    (more : list (box * list box)) : list box :=
  match more with
  | [] => [anonymous_fragment container_element line_element t]
  | (b, t') :: more' =>
      fragment_unless_empty container_element line_element t
      ++ b :: emit_after container_element line_element t' more'
  end.

(** Modelled from the spec: what build.py's [block_in_inline] puts in the
    place of a line box: the line box itself when no block-level box was
    found in it, the alternating sequence of anonymous block boxes and
    blocks otherwise. *)
Definition emit (container_element line_element : E) (s : scan) : list box :=
  match s.2 with
  | [] => [ParentBox Line line_element s.1]
  | (b, t) :: more =>
      fragment_unless_empty container_element line_element s.1
      ++ b :: emit_after container_element line_element t more
  end.

(** Modelled from the spec: the children of a box after build.py's
    [block_in_inline]: a line box among them is replaced by what [emit]
    gives for its content, any other child by its own normalisation. *)
Definition normalize_children (block_in_inline : box → box)
    (split_box : box → scan → scan) (element : E) (children : list box)
  : list box :=
  flat_map (λ child,
              match child with
              | ParentBox Line line_element line_children =>
                  emit element line_element
                       (fold_right split_box ([], []) line_children)
              | _ => [block_in_inline child]
              end)
           children.

(** Modelled from the spec: [block_in_inline] of build.py, and the scan
    [split_box] of one box [c] of a line's inline subtree, followed by the
    scan [s] of its right siblings.  An inline box is entered; a block-level
    box is pulled out, normalised itself; any other box (text, replaced
    content, an inline block) stays in the line, normalised itself. *)
Fixpoint block_in_inline (b : box) : box :=
  match b with
  | ParentBox type element children =>
      ParentBox type element
        (normalize_children block_in_inline split_box element children)
  | _ => b
  end
with split_box (c : box) (s : scan) : scan :=
  match c with
  | ParentBox Inline element children =>
      graft (ParentBox Inline element)
            (fold_right split_box ([], []) children) s
  | ParentBox ((Block | AnonymousBlock) as type) element children =>
      cons_block
        (ParentBox type element
           (normalize_children block_in_inline split_box element children)) s
  | ParentBox type element children =>
      cons_inline
        (ParentBox type element
           (normalize_children block_in_inline split_box element children)) s
  | _ => cons_inline c s
  end.

(** ** What the idempotence proofs speak of *)

(** The scan of a box's children. *)
Definition split_children (children : list box) : scan :=
  fold_right split_box ([], []) children.

Definition is_line (b : box) : bool :=
  match b with
  | ParentBox Line _ _ => true
  | _ => false
  end.

(** A box that stays whole, and unchanged, in an inline context. *)
Definition clean_box (c : box) : Prop :=
  ∀ s, split_box c s = cons_inline c s.

(** A scan whose pieces the pass leaves alone. *)
Definition good (s : scan) : Prop :=
  Forall clean_box s.1
  ∧ Forall (λ bt : box * list box,
              block_in_inline bt.1 = bt.1 ∧ is_line bt.1 = false
              ∧ Forall clean_box bt.2) s.2.

Definition splits_as (type : box_type) : box_type :=
  match type with
  | Inline => Inline
  | Block | AnonymousBlock => Block
  | _ => Line
  end.

(** The three facts that go through the induction together: the pass leaves
    its result alone; in an inline context the box splits into pieces the
    pass leaves alone; so do its children. *)
Definition settled (b : box) : Prop :=
  block_in_inline (block_in_inline b) = block_in_inline b
  ∧ (∀ s, good s → good (split_box b s))
  ∧ match b with
    | ParentBox _ _ children => good (split_children children)
    | _ => True
    end.

(** ** Induction on box trees *)

Section box_ind.
Variable P : box → Prop.
Hypothesis Htext : ∀ element text, P (TextBox element text).
Hypothesis Hreplaced : ∀ element, P (ReplacedBox element).
Hypothesis Hparent : ∀ type element children,
  Forall P children → P (ParentBox type element children).

Fixpoint box_ind (b : box) : P b :=
  match b with
  | TextBox element text => Htext element text
  | ReplacedBox element => Hreplaced element
  | ParentBox type element children =>
      Hparent type element children
        ((fix all (l : list box) : Forall P l :=
            match l with
            | [] => List.Forall_nil P
            | c :: rest => List.Forall_cons P c rest (box_ind c) (all rest)
            end) children)
  end.
End box_ind.

(** ** inline_in_block is idempotent *)

Lemma flush_not_inline element run :
  Forall (λ b, is_inline_level b = false) (flush element run).
Proof. destruct run; simpl; repeat constructor. Qed.

Lemma wrap_runs_not_inline element children :
  ∀ run, Forall (λ b, is_inline_level b = false)
                (wrap_runs element run children).
Proof.
  induction children as [|child rest IH]; intros run; simpl.
  - apply flush_not_inline.
  - destruct (is_inline_level child) eqn:Hchild; [apply IH|].
    apply Forall_app. split; [apply flush_not_inline|].
    constructor; [done|apply IH].
Qed.

Lemma wrap_runs_fixed element children :
  Forall (λ b, is_inline_level b = false) children →
  wrap_runs element [] children = children.
Proof.
  induction 1 as [|child rest Hchild _ IH]; simpl; [done|].
  by rewrite Hchild, IH.
Qed.

Lemma wrap_children_not_inline element children :
  Forall (λ b, is_inline_level b = false) (wrap_children element children).
Proof.
  unfold wrap_children. destruct children as [|child rest]; [constructor|].
  destruct (forallb is_inline_level (child :: rest)).
  - by repeat constructor.
  - apply wrap_runs_not_inline.
Qed.

Lemma wrap_children_fixed element children :
  Forall (λ b, is_inline_level b = false) children →
  wrap_children element children = children.
Proof.
  intros Hall. unfold wrap_children.
  destruct children as [|child rest]; [done|].
  pose proof (Forall_inv Hall) as Hchild. simpl in Hchild.
  simpl forallb. rewrite Hchild. simpl andb.
  by apply wrap_runs_fixed.
Qed.

Lemma inline_in_block_line_fixed element run :
  Forall (λ b, inline_in_block b = b) run →
  inline_in_block (ParentBox Line element run) = ParentBox Line element run.
Proof.
  intros Hrun. simpl. f_equal.
  induction Hrun as [|c run Hc _ IH]; simpl; [done|]. by rewrite Hc, IH.
Qed.

Lemma inline_in_block_anonymous_line_fixed element run :
  Forall (λ b, inline_in_block b = b) run →
  inline_in_block (anonymous_line element run) = anonymous_line element run.
Proof.
  intros Hrun. unfold anonymous_line.
  change (inline_in_block (ParentBox AnonymousBlock element
                             [ParentBox Line element run]))
    with (ParentBox AnonymousBlock element
            (wrap_children element
               [inline_in_block (ParentBox Line element run)])).
  by rewrite inline_in_block_line_fixed.
Qed.

Lemma flush_fixed element run :
  Forall (λ b, inline_in_block b = b) run →
  Forall (λ b, inline_in_block b = b) (flush element run).
Proof.
  intros Hrun. destruct run as [|c run]; [constructor|].
  constructor; [|constructor].
  by apply inline_in_block_anonymous_line_fixed.
Qed.

Lemma wrap_runs_all_fixed element children :
  Forall (λ b, inline_in_block b = b) children →
  ∀ run, Forall (λ b, inline_in_block b = b) run →
         Forall (λ b, inline_in_block b = b) (wrap_runs element run children).
Proof.
  induction 1 as [|child rest Hchild _ IH]; intros run Hrun; simpl.
  - by apply flush_fixed.
  - destruct (is_inline_level child).
    + apply IH. apply Forall_app. split; [done|]. by constructor.
    + apply Forall_app. split; [by apply flush_fixed|].
      constructor; [done|]. apply IH. constructor.
Qed.

Lemma wrap_children_all_fixed element children :
  Forall (λ b, inline_in_block b = b) children →
  Forall (λ b, inline_in_block b = b) (wrap_children element children).
Proof.
  intros Hall. unfold wrap_children.
  destruct children as [|child rest]; [constructor|].
  destruct (forallb is_inline_level (child :: rest)).
  - constructor; [|constructor]. by apply inline_in_block_line_fixed.
  - apply wrap_runs_all_fixed; [done|constructor].
Qed.

Lemma map_fixed (f : box → box) (l : list box) :
  Forall (λ b, f b = b) l → map f l = l.
Proof. induction 1 as [|c l Hc _ IH]; simpl; [done|]. by rewrite Hc, IH. Qed.

Lemma inline_in_block_idempotent (b : box) :
  inline_in_block (inline_in_block b) = inline_in_block b.
Proof.
  induction b as [| |type element children IH] using box_ind; [done..|].
  assert (Forall (λ b, inline_in_block b = b) (map inline_in_block children))
    as Hfixed.
  { apply Forall_map. exact IH. }
  change (inline_in_block (ParentBox type element children))
    with (ParentBox type element
            (if is_block_container type
             then wrap_children element (map inline_in_block children)
             else map inline_in_block children)).
  destruct (is_block_container type) eqn:Htype.
  - simpl. rewrite Htype.
    rewrite (map_fixed _ _ (wrap_children_all_fixed element _ Hfixed)).
    by rewrite (wrap_children_fixed _ _ (wrap_children_not_inline element _)).
  - simpl. rewrite Htype. by rewrite (map_fixed _ _ Hfixed).
Qed.

(** ** block_in_inline is idempotent *)

Lemma block_in_inline_parent type element children :
  block_in_inline (ParentBox type element children)
  = ParentBox type element
      (normalize_children block_in_inline split_box element children).
Proof. reflexivity. Qed.

Lemma normalize_children_cons element child children :
  normalize_children block_in_inline split_box element (child :: children)
  = normalize_children block_in_inline split_box element [child]
    ++ normalize_children block_in_inline split_box element children.
Proof. unfold normalize_children. simpl. by rewrite app_nil_r. Qed.

Lemma normalize_children_app element l1 l2 :
  normalize_children block_in_inline split_box element (l1 ++ l2)
  = normalize_children block_in_inline split_box element l1
    ++ normalize_children block_in_inline split_box element l2.
Proof. apply flat_map_app. Qed.

Lemma normalize_children_line element line_element line_children :
  normalize_children block_in_inline split_box element
    [ParentBox Line line_element line_children]
  = emit element line_element (split_children line_children).
Proof. unfold normalize_children. simpl. apply app_nil_r. Qed.

Lemma normalize_children_other element child :
  is_line child = false →
  normalize_children block_in_inline split_box element [child]
  = [block_in_inline child].
Proof.
  intros Hchild. unfold normalize_children.
  destruct child as [| |[] ? ?]; done.
Qed.

Lemma split_clean (segment : list box) (s : scan) :
  Forall clean_box segment →
  fold_right split_box s segment = (segment ++ s.1, s.2).
Proof.
  induction 1 as [|c segment Hc _ IH]; simpl; [by destruct s|].
  rewrite IH. apply Hc.
Qed.

Lemma split_children_clean (segment : list box) :
  Forall clean_box segment → split_children segment = (segment, []).
Proof.
  intros Hclean. unfold split_children. rewrite split_clean by done.
  simpl. by rewrite app_nil_r.
Qed.

Lemma clean_inline element (segment : list box) :
  Forall clean_box segment → clean_box (ParentBox Inline element segment).
Proof.
  intros Hclean s. simpl. fold (split_children segment).
  by rewrite split_children_clean.
Qed.

Lemma graft_blocks_good element b t more (s : scan) :
  block_in_inline b = b → is_line b = false → Forall clean_box t →
  Forall (λ bt : box * list box,
            block_in_inline bt.1 = bt.1 ∧ is_line bt.1 = false
            ∧ Forall clean_box bt.2) more →
  good s →
  Forall (λ bt : box * list box,
            block_in_inline bt.1 = bt.1 ∧ is_line bt.1 = false
            ∧ Forall clean_box bt.2)
         (graft_blocks (ParentBox Inline element) b t more s).
Proof.
  intros Hb Hline Ht Hmore [Hs1 Hs2]. revert b t Hb Hline Ht.
  induction Hmore as [|[b' t'] more (Hb' & Hline' & Ht') _ IH];
    intros b t Hb Hline Ht; simpl.
  - constructor; [|done]. simpl. split; [done|]. split; [done|].
    constructor; [by apply clean_inline|done].
  - constructor.
    + simpl. split; [done|]. split; [done|].
      constructor; [by apply clean_inline|constructor].
    + by apply IH.
Qed.

Lemma graft_good element (t s : scan) :
  good t → good s → good (graft (ParentBox Inline element) t s).
Proof.
  intros [Ht1 Ht2] Hs. unfold graft.
  destruct t as [t0 [|[b t1] more]]; simpl in *.
  - destruct Hs as [Hs1 Hs2]. split; simpl; [|done].
    constructor; [by apply clean_inline|done].
  - apply Forall_cons in Ht2 as [(Hb & Hline & Ht1') Hmore]. split; simpl.
    + constructor; [by apply clean_inline|constructor].
    + by apply graft_blocks_good.
Qed.

Lemma anonymous_fragment_fixed container_element line_element content :
  Forall clean_box content →
  normalize_children block_in_inline split_box container_element
    [anonymous_fragment container_element line_element content]
  = [anonymous_fragment container_element line_element content].
Proof.
  intros Hclean. unfold anonymous_fragment.
  rewrite normalize_children_other by done.
  rewrite block_in_inline_parent, normalize_children_line.
  by rewrite split_children_clean.
Qed.

Lemma fragment_unless_empty_fixed container_element line_element content :
  Forall clean_box content →
  normalize_children block_in_inline split_box container_element
    (fragment_unless_empty container_element line_element content)
  = fragment_unless_empty container_element line_element content.
Proof.
  intros Hclean. destruct content as [|c content]; [done|].
  by apply anonymous_fragment_fixed.
Qed.

Lemma block_fixed container_element b :
  block_in_inline b = b → is_line b = false →
  normalize_children block_in_inline split_box container_element [b] = [b].
Proof. intros Hb Hline. rewrite normalize_children_other by done. by rewrite Hb. Qed.

Lemma emit_after_fixed container_element line_element more :
  Forall (λ bt : box * list box,
            block_in_inline bt.1 = bt.1 ∧ is_line bt.1 = false
            ∧ Forall clean_box bt.2) more →
  ∀ t, Forall clean_box t →
  normalize_children block_in_inline split_box container_element
    (emit_after container_element line_element t more)
  = emit_after container_element line_element t more.
Proof.
  induction 1 as [|[b t'] more (Hb & Hline & Ht') _ IH]; intros t Ht; simpl.
  - by apply anonymous_fragment_fixed.
  - rewrite normalize_children_app, normalize_children_cons.
    rewrite fragment_unless_empty_fixed by done.
    rewrite block_fixed by done. by rewrite IH.
Qed.

Lemma emit_fixed container_element line_element (s : scan) :
  good s →
  normalize_children block_in_inline split_box container_element
    (emit container_element line_element s)
  = emit container_element line_element s.
Proof.
  intros [Hs1 Hs2]. unfold emit.
  destruct s as [s0 [|[b t] more]]; cbn [fst snd] in *.
  - rewrite normalize_children_line. by rewrite split_children_clean.
  - apply Forall_cons in Hs2 as [(Hb & Hline & Ht) Hmore].
    rewrite normalize_children_app, normalize_children_cons.
    rewrite fragment_unless_empty_fixed by done.
    rewrite block_fixed by done. by rewrite emit_after_fixed.
Qed.

Lemma good_nil : good ([], []).
Proof. split; constructor. Qed.

Lemma split_children_good (children : list box) :
  Forall (λ c, ∀ s, good s → good (split_box c s)) children →
  good (split_children children).
Proof.
  unfold split_children.
  induction 1 as [|c children Hc _ IH]; simpl; [apply good_nil|by apply Hc].
Qed.

Lemma normalize_children_settled element (children : list box) :
  Forall settled children →
  normalize_children block_in_inline split_box element
    (normalize_children block_in_inline split_box element children)
  = normalize_children block_in_inline split_box element children.
Proof.
  induction 1 as [|c children (Hc & _ & Hsplit) _ IH]; [done|].
  rewrite normalize_children_cons, normalize_children_app, IH. f_equal.
  destruct (is_line c) eqn:Hline.
  - destruct c as [| |[] line_element line_children]; try done.
    rewrite normalize_children_line. by apply emit_fixed.
  - rewrite normalize_children_other by done.
    rewrite normalize_children_other; [by rewrite Hc|].
    by destruct c as [| |[] ? ?].
Qed.

Lemma split_box_parent type element children (s : scan) :
  split_box (ParentBox type element children) s
  = match splits_as type with
    | Inline => graft (ParentBox Inline element) (split_children children) s
    | Block =>
        cons_block (block_in_inline (ParentBox type element children)) s
    | _ => cons_inline (block_in_inline (ParentBox type element children)) s
    end.
Proof. by destruct type. Qed.

Lemma all_settled (b : box) : settled b.
Proof.
  induction b as [element text|element|type element children IH]
    using box_ind.
  - split; [done|]. split; [|done]. intros s [Hs1 Hs2]. split; [|done].
    constructor; [|done]. by intros s'.
  - split; [done|]. split; [|done]. intros s [Hs1 Hs2]. split; [|done].
    constructor; [|done]. by intros s'.
  - assert (good (split_children children)) as Hchildren.
    { apply split_children_good. eapply Forall_impl; [exact IH|].
      by intros c (_ & Hc & _). }
    assert (block_in_inline (block_in_inline (ParentBox type element children))
            = block_in_inline (ParentBox type element children)) as Hfixed.
    { rewrite !block_in_inline_parent. f_equal.
      by apply normalize_children_settled. }
    split; [done|]. split; [|done].
    intros s Hs. pose proof Hs as [Hs1 Hs2].
    rewrite split_box_parent.
    assert (splits_as type = Line →
            clean_box (block_in_inline (ParentBox type element children)))
      as Hclean.
    { intros Htype s'.
      rewrite block_in_inline_parent, split_box_parent, Htype.
      by rewrite <- block_in_inline_parent, Hfixed. }
    destruct (splits_as type) eqn:Htype.
    + split; [constructor|]. constructor; [|done].
      split; [done|]. split; [by destruct type|done].
    + by apply graft_good.
    + by destruct type.
    + split; [|done]. constructor; [by apply Hclean|done].
    + by destruct type.
    + by destruct type.
Qed.

Lemma block_in_inline_idempotent (b : box) :
  block_in_inline (block_in_inline b) = block_in_inline b.
Proof. apply all_settled. Qed.

(** C9: both normalisation passes are idempotent: applying a pass to its own
    result gives an equal tree, whatever the box tree. *)
Theorem normalization_passes_idempotent (T : box) :
  inline_in_block (inline_in_block T) = inline_in_block T
  ∧ block_in_inline (block_in_inline T) = block_in_inline T.
Proof.
  split; [apply inline_in_block_idempotent|apply block_in_inline_idempotent].
Qed.

End Build.


(** * A small instance

    Stand-ins for the collaborators, on which the cascade can be run: CSS
    values are keywords, a style attribute holds declarations
    [name: value] separated by [;], selectors are tag names with an optional
    pseudo-element, and [compute_values] leaves the specified values as they
    are. *)

Module Sample.

Definition validate_and_expand (name : string) (values : string)
  : list (string * string) :=
  [(name, values)].

(** [text.split(sep)] for a one-character separator. *)
Fixpoint split (sep : Ascii.ascii) (text : string) : list string :=
  match text with
  | EmptyString => [EmptyString]
  | String c rest =>
      if Ascii.eqb c sep then EmptyString :: split sep rest
      else match split sep rest with
           | piece :: pieces => String c piece :: pieces
           | [] => [String c EmptyString]
           end
  end.

(** [text.partition(sep)], when the separator occurs: what is before its
    first occurrence and what is after. *)
Fixpoint partition (sep : Ascii.ascii) (text : string)
  : option (string * string) :=
  match text with
  | EmptyString => None
  | String c rest =>
      if Ascii.eqb c sep then Some (EmptyString, rest)
      else match partition sep rest with
           | Some (before, after) => Some (String c before, after)
           | None => None
           end
  end.

Fixpoint lstrip (text : string) : string :=
  match text with
  | String c rest => if Ascii.eqb c (Ascii.ascii_of_nat 32) then lstrip rest
                     else text
  | EmptyString => EmptyString
  end.

Fixpoint rstrip (text : string) : string :=
  match text with
  | String c rest =>
      let stripped := rstrip rest in
      if Ascii.eqb c (Ascii.ascii_of_nat 32) && String.eqb stripped ""
      then EmptyString
      else String c stripped
  | EmptyString => EmptyString
  end.

Definition strip (text : string) : string := rstrip (lstrip text).

(** One declaration [name: value] or [name: value !important]; a text
    without a colon, or without a name or a value, is no declaration. *)
Definition parse_declaration (text : string)
  : option (string * string * string) :=
  match partition (Ascii.ascii_of_nat 58) text with
  | Some (name, rest) =>
      let '(values, priority) :=
        match partition (Ascii.ascii_of_nat 33) rest with
        | Some (values, priority) => (strip values, strip priority)
        | None => (strip rest, "")
        end in
      if str_truthy (strip name) && str_truthy values
      then Some (strip name, values, priority)
      else None
  | None => None
  end.

(** The declarations of a style attribute, for texts of the form
    [name: value; name: value !important; ...]; what holds no declaration
    (['red'], say) gives no property, as with cssutils. *)
Definition parseStyle (text : string) : list (string * string * string) :=
  omap parse_declaration (split (Ascii.ascii_of_nat 59) text).

Definition cssselect_parse (text : string) : parsed_selector :=
  if String.eqb text "p:before" then Pseudo (NotPseudo "p") "before"
  else if String.eqb text "p:hover" then Pseudo (NotPseudo "p") "hover"
  else NotPseudo text.

Definition CSSSelector (parsed : parsed_selector)
  : result (etree → list (list nat)) :=
  match parsed with
  | NotPseudo tag_name =>
      Ok (λ document,
            omap (λ '(position, Node tag _ _),
                    if String.eqb tag tag_name then Some position else None)
                 (iter document))
  | Pseudo _ _ => Raise ExpressionError
  end.

Definition get_single_keyword (values : string) : option string :=
  Some values.

Definition INITIAL_VALUES : gmap string string :=
  list_to_map [("color", "black"); ("display", "inline")].

Definition INHERITED : gset string := {["color"]}.

Definition compute_values (_ : element) (_ : option string)
    (style : gmap string string) (_ : option (gmap string string))
  : gmap string string :=
  style.

Definition find_stylesheets (_ : etree) : list (@stylesheet string) := [].

(** [<html><p style="color: red"></p><p></p></html>] *)
Definition document : etree :=
  Node "html" ∅ [Node "p" {["style" := "color: red"]} []; Node "p" ∅ []].

Definition all_media : media_list := {| mediaText := "all"; queries := [] |}.

(** [p:before { color: blue }] *)
Definition before_sheet : @stylesheet string :=
  {| sheet_media := all_media;
     sheet_cssRules :=
       [STYLE_RULE [{| selectorText := "p:before";
                       specificity := (0, 0, 0, 2)%Z |}]
                   [("color", "blue", "")]] |}.

(** [p { color: green } @page :first { display: block }] *)
Definition plain_sheet : @stylesheet string :=
  {| sheet_media := all_media;
     sheet_cssRules :=
       [STYLE_RULE [{| selectorText := "p"; specificity := (0, 0, 0, 1)%Z |}]
                   [("color", "green", "")];
        PAGE_RULE ":first" [("display", "block", "")]] |}.

Definition sample_cascade :=
  cascade validate_and_expand parseStyle cssselect_parse CSSSelector
          find_stylesheets.

Definition sample_styles :=
  get_all_computed_styles validate_and_expand parseStyle cssselect_parse
    CSSSelector get_single_keyword INITIAL_VALUES INHERITED compute_values
    find_stylesheets.

(** [@page toc { display: block } p { color: green }] *)
Definition named_page_sheet : @stylesheet string :=
  {| sheet_media := all_media;
     sheet_cssRules :=
       [PAGE_RULE "toc" [("display", "block", "")];
        STYLE_RULE [{| selectorText := "p"; specificity := (0, 0, 0, 1)%Z |}]
                   [("color", "green", "")]] |}.

(** [p, p:hover { color: green }], whose second selector is unsupported. *)
Definition hover_selectors : list selector :=
  [{| selectorText := "p"; specificity := (0, 0, 0, 1)%Z |};
   {| selectorText := "p:hover"; specificity := (0, 0, 1, 1)%Z |}].

(** What the stand-in reads in a style attribute. *)
Example parseStyle_samples :
  parseStyle "red" = []
  ∧ parseStyle "color: red" = [("color", "red", "")]
  ∧ parseStyle "color: red; display: block !important"
    = [("color", "red", ""); ("display", "block", "important")].
Proof. repeat split; vm_compute; reflexivity. Qed.

(** An unsupported selector in the list of a style rule: no match, not even
    for the supported [p], and a warning. *)
Example match_selectors_hover :
  match_selectors cssselect_parse CSSSelector document hover_selectors
  = Ok ([], [UnsupportedSelector "p:hover"]).
Proof. vm_compute. reflexivity. Qed.

(** C3: an @page rule with the unsupported selector ['toc'] (a page name)
    makes [match_page_selector] raise [KeyError]: it neither yields an empty
    sequence nor logs its warning, and [get_all_computed_styles] stops there
    instead of going on with the remaining rules. *)
Theorem match_page_selector_unsupported_raises :
  match_page_selector "toc" = Raise KeyError
  ∧ sample_styles document "print" None (Some [named_page_sheet])
    = Raise KeyError.
Proof. split; vm_compute; reflexivity. Qed.

(** C2: the attribute [style="color: red"] of the first [p] holds one
    declaration.  With the user-agent sheet [p:before { color: blue }], that
    declaration is stored under the key (p, 'before'), the value the
    variable [pseudo_type] kept from the last match, and nothing is stored
    under (p, None); without any match before, reading the variable
    raises. *)
Theorem inline_style_uses_stale_pseudo_type :
  find_style_attributes parseStyle document
  = [(Element [0%nat], [("color", "red", "")])]
  ∧ (st ← sample_cascade document "print" None (Some [before_sheet]);
   Ok (pseudo_type_var st,
       stored (cascaded_styles st) (Element [0%nat], None) "color",
       stored (cascaded_styles st) (Element [0%nat], Some "before") "color"))
  = Ok (Some (Some "before"), None,
        Some ("red", (Some 3%Z, SelectorSpecificity 1 0 0 0)))
  ∧ sample_cascade document "print" None None = Raise UnboundLocalError.
Proof. repeat split; vm_compute; reflexivity. Qed.

Lemma add_declaration_winner_witness :
  let w1 : weight := (Some 3%Z, SelectorSpecificity 0 0 0 1) in
  let w2 : weight := (Some 3%Z, SelectorSpecificity 0 0 1 0) in
  let k : key := (Element [0%nat], None) in
  stored (add_declaration (add_declaration ∅ "color" "red" w1 k.1 k.2)
                          "color" "blue" w2 k.1 k.2) k "color"
  = Some ("blue", w2)
  ∧ stored (add_declaration (add_declaration ∅ "color" "blue" w2 k.1 k.2)
                            "color" "red" w1 k.1 k.2) k "color"
    = Some ("blue", w2)
  ∧ stored (add_declaration (add_declaration ∅ "color" "red" w2 k.1 k.2)
                            "color" "blue" w2 k.1 k.2) k "color"
    = Some ("blue", w2).
Proof.
  intros w1 w2 k.
  destruct (add_declaration_winner (value := string) ∅ "color"
              (Element [0%nat]) None) as (_ & Hhigher & Hequal).
  split; [|split].
  - apply (Hhigher "red" w1 "blue" w2); reflexivity.
  - apply (Hhigher "red" w1 "blue" w2); reflexivity.
  - apply (Hequal "red" "blue" w2); reflexivity.
Defined.

Lemma computed_from_cascaded_no_gaps_witness :
  let cascaded : gmap string (string * weight) :=
    {["display" := ("inherit", (Some 3%Z, SelectorSpecificity 0 0 0 1))]} in
  let parent : gmap string string :=
    list_to_map [("color", "red"); ("display", "block")] in
  ∃ specified,
    computed_from_cascaded get_single_keyword INITIAL_VALUES INHERITED
      compute_values (Element [0%nat]) cascaded (Some parent) None
    = Ok specified
    ∧ specified !! "color" = Some "red"
    ∧ specified !! "display" = Some "block".
Proof.
  intros cascaded parent.
  destruct (computed_from_cascaded_no_gaps get_single_keyword INITIAL_VALUES
              INHERITED compute_values (Element [0%nat]) cascaded
              (Some parent) None)
    as (specified & _ & Hcomputed & _ & Hname).
  - intros e pt style ps. reflexivity.
  - unfold parent_complete, complete. apply (bool_decide_unpack _).
    vm_compute. exact I.
  - exists specified. split; [exact Hcomputed|].
    destruct (Hname "color" "black" eq_refl) as (_ & -> & _).
    destruct (Hname "display" "inline" eq_refl) as (_ & -> & _).
    split; vm_compute; reflexivity.
Defined.

Lemma sample_styles_plain_Ok :
  is_Ok (sample_styles document "print" None (Some [plain_sheet])) = true.
Proof. vm_compute. reflexivity. Qed.

Lemma get_all_computed_styles_pages_witness :
  ∃ computed_styles,
    sample_styles document "print" None (Some [plain_sheet])
    = Ok computed_styles
    ∧ ∃ st,
        sample_cascade document "print" None (Some [plain_sheet]) = Ok st
        ∧ ∀ pseudo_type : option string,
            (AtPage, pseudo_type) ∈ dom computed_styles ↔
              pseudo_type ∈ [Some "left"; Some "right";
                             Some "first_left"; Some "first_right"].
Proof.
  pose proof sample_styles_plain_Ok as Hok.
  destruct (sample_styles document "print" None (Some [plain_sheet]))
    as [computed_styles|e] eqn:E; [|discriminate Hok].
  exists computed_styles. split; [reflexivity|].
  destruct (get_all_computed_styles_pages validate_and_expand parseStyle
              cssselect_parse CSSSelector get_single_keyword INITIAL_VALUES
              INHERITED compute_values find_stylesheets document "print"
              None (Some [plain_sheet]) computed_styles E)
    as (st & Hst & Hpages & _).
  exists st. split; [exact Hst|exact Hpages].
Defined.

Lemma sample_styles_before_Ok :
  is_Ok (sample_styles document "print" None (Some [before_sheet])) = true.
Proof. vm_compute. reflexivity. Qed.

Lemma get_all_computed_styles_keys_witness :
  ∃ computed_styles,
    sample_styles document "print" None (Some [before_sheet])
    = Ok computed_styles
    ∧ (Element [1%nat], None) ∈ dom computed_styles
    ∧ (AtPage, Some "left") ∈ dom computed_styles
    ∧ (AtPage, None) ∉ dom computed_styles.
Proof.
  pose proof sample_styles_before_Ok as Hok.
  destruct (sample_styles document "print" None (Some [before_sheet]))
    as [computed_styles|e] eqn:E; [|discriminate Hok].
  exists computed_styles. split; [reflexivity|].
  destruct (get_all_computed_styles_keys validate_and_expand parseStyle
              cssselect_parse CSSSelector get_single_keyword INITIAL_VALUES
              INHERITED compute_values find_stylesheets document "print"
              None (Some [before_sheet]) computed_styles E)
    as (st & Hst & Hkeys).
  split; [|split].
  - apply Hkeys. left. exists [1%nat]. split; [|reflexivity].
    apply list_elem_of_In. vm_compute. tauto.
  - apply Hkeys. right; right. exists "left". split; [|reflexivity].
    apply list_elem_of_In. vm_compute. tauto.
  - intros Hin. apply Hkeys in Hin
      as [(position & _ & [=])|[(position & pt & [=] & _)
                               |(page_type & _ & [=])]].
Defined.

(** ** The trees of weasy/tests/test_boxes.py *)

Abbreviation BlockBox := (ParentBox Block).
Abbreviation InlineBox := (ParentBox Inline).
Abbreviation InlineBlockBox := (ParentBox InlineBlock).
Abbreviation LineBox := (ParentBox Line).
Abbreviation AnonymousBlockBox := (ParentBox AnonymousBlock).

Definition newline : string := String (Ascii.ascii_of_nat 10) "".

(** [<div>Hello, <em>World</em>!\n<p>Lipsum.</p></div>] *)
Definition hello_world : @box string :=
  BlockBox "html" [BlockBox "body" [BlockBox "div" [
    TextBox "div" "Hello, ";
    InlineBox "em" [TextBox "em" "World"];
    TextBox "div" ("!" +:+ newline);
    BlockBox "p" [TextBox "p" "Lipsum."]]]].

(** test_inline_in_block: the expected tree, after one pass and after two. *)
Example test_inline_in_block :
  inline_in_block hello_world
  = BlockBox "html" [BlockBox "body" [BlockBox "div" [
      AnonymousBlockBox "div" [LineBox "div" [
        TextBox "div" "Hello, ";
        InlineBox "em" [TextBox "em" "World"];
        TextBox "div" ("!" +:+ newline)]];
      BlockBox "p" [LineBox "p" [TextBox "p" "Lipsum."]]]]]
  ∧ inline_in_block (inline_in_block hello_world)
    = inline_in_block hello_world.
Proof. split; reflexivity. Qed.

(** The document of test_block_in_inline, where [p] is an inline block and
    [span] a block. *)
Definition lorem_ipsum : @box string :=
  BlockBox "html" [BlockBox "body" [InlineBlockBox "p" [
    TextBox "p" "Lorem ";
    InlineBox "em" [
      TextBox "em" "ipsum ";
      InlineBox "strong" [
        TextBox "strong" "dolor ";
        BlockBox "span" [TextBox "span" "sit"];
        TextBox "strong" (newline +:+ "    ");
        BlockBox "span" [TextBox "span" "amet,"]];
      BlockBox "span" [
        InlineBox "em" [TextBox "em" "consectetur"; BlockBox "div" []]]]]]].

(** test_block_in_inline: the expected trees after each pass. *)
Example test_block_in_inline :
  inline_in_block lorem_ipsum
  = BlockBox "html" [BlockBox "body" [LineBox "body" [
      InlineBlockBox "p" [LineBox "p" [
        TextBox "p" "Lorem ";
        InlineBox "em" [
          TextBox "em" "ipsum ";
          InlineBox "strong" [
            TextBox "strong" "dolor ";
            BlockBox "span" [LineBox "span" [TextBox "span" "sit"]];
            TextBox "strong" (newline +:+ "    ");
            BlockBox "span" [LineBox "span" [TextBox "span" "amet,"]]];
          BlockBox "span" [LineBox "span" [
            InlineBox "em" [
              TextBox "em" "consectetur"; BlockBox "div" []]]]]]]]]]
  ∧ block_in_inline (inline_in_block lorem_ipsum)
    = BlockBox "html" [BlockBox "body" [LineBox "body" [
        InlineBlockBox "p" [
          AnonymousBlockBox "p" [LineBox "p" [
            TextBox "p" "Lorem ";
            InlineBox "em" [
              TextBox "em" "ipsum ";
              InlineBox "strong" [TextBox "strong" "dolor "]]]];
          BlockBox "span" [LineBox "span" [TextBox "span" "sit"]];
          AnonymousBlockBox "p" [LineBox "p" [
            InlineBox "em" [
              InlineBox "strong" [TextBox "strong" (newline +:+ "    ")]]]];
          BlockBox "span" [LineBox "span" [TextBox "span" "amet,"]];
          AnonymousBlockBox "p" [LineBox "p" [
            InlineBox "em" [InlineBox "strong" []]]];
          BlockBox "span" [
            AnonymousBlockBox "span" [LineBox "span" [
              InlineBox "em" [TextBox "em" "consectetur"]]];
            BlockBox "div" [];
            AnonymousBlockBox "span" [LineBox "span" [InlineBox "em" []]]];
          AnonymousBlockBox "p" [LineBox "p" [InlineBox "em" []]]]]]].
Proof. split; reflexivity. Qed.


(** ** Instances of the properties of the cascade *)

Lemma add_declaration_commutes_witness :
  let w : weight := (Some 3%Z, SelectorSpecificity 0 0 0 1) in
  let elt := Element [0%nat] in
  add_declaration (add_declaration ∅ "color" "red" w elt None)
                  "display" "block" w elt None
  = add_declaration (add_declaration ∅ "display" "block" w elt None)
                    "color" "red" w elt None.
Proof.
  intros w elt. apply (add_declaration_commutes (value := string)).
  discriminate.
Defined.

Lemma add_declaration_monotone_witness :
  let w0 : weight := (Some 3%Z, SelectorSpecificity 0 0 1 0) in
  let w : weight := (Some 3%Z, SelectorSpecificity 0 0 0 1) in
  let elt := Element [0%nat] in
  ∃ values1 w1,
    stored (add_declaration (add_declaration ∅ "color" "red" w0 elt None)
                            "color" "blue" w elt None)
           (elt, None) "color"
    = Some (values1, w1)
    ∧ weight_le w0 w1 = true.
Proof.
  intros w0 w elt.
  apply (add_declaration_monotone (value := string) _ "color" "blue" w elt
           None (elt, None) "color" "red" w0).
  vm_compute. reflexivity.
Defined.

Lemma add_declarations_winner_witness :
  let w1 : weight := (Some 3%Z, SelectorSpecificity 0 0 0 1) in
  let w2 : weight := (Some 3%Z, SelectorSpecificity 0 0 1 0) in
  let declared := [("red", w1); ("blue", w2); ("green", w2); ("black", w1)] in
  ∃ earlier values w later,
    declared = earlier ++ (values, w) :: later
    ∧ stored (add_declarations ∅ "color" (Element [0%nat]) None declared)
             (Element [0%nat], None) "color"
      = Some (values, w)
    ∧ Forall (λ d, weight_le d.2 w = true) earlier
    ∧ Forall (λ d, weight_lt d.2 w = true) later.
Proof.
  intros w1 w2 declared.
  apply (add_declarations_winner (value := string)).
  - vm_compute. reflexivity.
  - discriminate.
Defined.

Lemma precedence_outranks_specificity_witness :
  let elt := Element [0%nat] in
  let cs : gmap key (gmap string (string * weight)) :=
    add_declaration ∅ "color" "red" (Some 3%Z, SelectorSpecificity 0 1 0 0)
                    elt None in
  let cs' :=
    add_declaration cs "color" "blue" (Some 5%Z, SelectorSpecificity 0 0 0 1)
                    elt None in
  stored cs' (elt, None) "color"
  = Some ("blue", (Some 5%Z, SelectorSpecificity 0 0 0 1)).
Proof.
  intros elt cs cs'.
  apply (precedence_outranks_specificity cs cs' "user" "important" "color"
           "blue" "red" elt None (SelectorSpecificity 0 0 0 1)
           (SelectorSpecificity 0 1 0 0) 5 3).
  - vm_compute. reflexivity.
  - vm_compute. reflexivity.
  - reflexivity.
  - lia.
Defined.

Lemma match_selectors_items_witness :
  let p := {| selectorText := "p"; specificity := (0, 0, 0, 1)%Z |} in
  Forall (λ item : matched_item,
            ∃ sel selector_callable position,
              sel ∈ [p]
              ∧ selector_to_xpath cssselect_parse CSSSelector sel
                = Ok (item.1.2, selector_callable)
              ∧ position ∈ selector_callable document
              ∧ item = (Element position, item.1.2, specificity_of sel)
              ∧ (item.1.2 = None
                 ∨ ∃ ident, ident ∈ PSEUDO_ELEMENTS ∧ item.1.2 = Some ident))
         [(Element [0%nat], None, SelectorSpecificity 0 0 0 1);
          (Element [1%nat], None, SelectorSpecificity 0 0 0 1)].
Proof.
  intros p.
  apply (match_selectors_items cssselect_parse CSSSelector document [p] _ []).
  vm_compute. reflexivity.
Defined.

Lemma match_selectors_first_unsupported_witness :
  match_selectors cssselect_parse CSSSelector document hover_selectors
  = Ok ([], [UnsupportedSelector "p:hover"]).
Proof.
  apply (match_selectors_first_unsupported cssselect_parse CSSSelector
           document [{| selectorText := "p"; specificity := (0, 0, 0, 1)%Z |}]
           [] {| selectorText := "p:hover"; specificity := (0, 0, 1, 1)%Z |}).
  - constructor; [reflexivity|constructor].
  - reflexivity.
Defined.

Lemma match_page_selector_returns_witness :
  Forall (λ item : matched_item,
            item.1.1 = AtPage
            ∧ ∃ page_type,
                page_type ∈ page_types ∧ item.1.2 = Some page_type)
         [(AtPage, Some "first_left", PageSpecificity 10);
          (AtPage, Some "first_right", PageSpecificity 10)].
Proof.
  apply (match_page_selector_returns ":first" _ []).
  vm_compute. reflexivity.
Defined.

Lemma computed_from_cascaded_missing_in_parent_witness :
  let cascaded : gmap string (string * weight) :=
    {["display" := ("inherit", (Some 3%Z, SelectorSpecificity 0 0 0 1))]} in
  let parent : gmap string string := {["color" := "red"]} in
  computed_from_cascaded get_single_keyword INITIAL_VALUES INHERITED
    compute_values (Element [0%nat]) cascaded (Some parent) None
  = Raise KeyError.
Proof.
  intros cascaded parent.
  apply (computed_from_cascaded_missing_in_parent get_single_keyword
           INITIAL_VALUES INHERITED compute_values (Element [0%nat]) cascaded
           parent None "display" "inline");
    vm_compute; reflexivity.
Defined.

Lemma set_computed_styles_parent_first_witness :
  set_computed_styles get_single_keyword INITIAL_VALUES INHERITED
    compute_values ∅ ∅ (Element [0%nat]) None
  = Raise KeyError.
Proof.
  apply (set_computed_styles_parent_first get_single_keyword INITIAL_VALUES
           INHERITED compute_values ∅ ∅ [0%nat] [] None);
    reflexivity.
Defined.

Lemma sample_cascade_before_Ok :
  is_Ok (sample_cascade document "print" None (Some [before_sheet])) = true.
Proof. vm_compute. reflexivity. Qed.

Lemma get_all_computed_styles_inherits_witness :
  ∃ st computed_styles,
    sample_styles document "print" None (Some [before_sheet])
    = Ok computed_styles
    ∧ wired get_single_keyword INITIAL_VALUES INHERITED compute_values
            (cascaded_styles st) computed_styles [1%nat] None.
Proof.
  pose proof sample_cascade_before_Ok as Hcascade.
  pose proof sample_styles_before_Ok as Hstyles.
  destruct (sample_cascade document "print" None (Some [before_sheet]))
    as [st|e] eqn:Ec; [|discriminate Hcascade].
  destruct (sample_styles document "print" None (Some [before_sheet]))
    as [computed_styles|e] eqn:Es; [|discriminate Hstyles].
  exists st, computed_styles. split; [reflexivity|].
  apply (get_all_computed_styles_inherits validate_and_expand parseStyle
           cssselect_parse CSSSelector get_single_keyword INITIAL_VALUES
           INHERITED compute_values find_stylesheets document "print" None
           (Some [before_sheet]) st computed_styles [1%nat] None Ec Es).
  apply (compute_keys get_single_keyword INITIAL_VALUES INHERITED
           compute_values document (cascaded_styles st)).
  - unfold sample_styles, get_all_computed_styles in Es.
    unfold sample_cascade in Ec. rewrite Ec in Es. exact Es.
  - left. exists [1%nat]. split; [|reflexivity].
    apply list_elem_of_In. vm_compute. tauto.
Defined.


Lemma style_attributes_without_stylesheets_witness :
  sample_styles document "print" None None = Raise UnboundLocalError.
Proof.
  apply (style_attributes_without_stylesheets validate_and_expand parseStyle
           cssselect_parse CSSSelector get_single_keyword INITIAL_VALUES
           INHERITED compute_values find_stylesheets document "print" None
           None (Element [0%nat]) (parseStyle "color: red")).
  - reflexivity.
  - reflexivity.
  - reflexivity.
  - apply list_elem_of_In. vm_compute. tauto.
  - discriminate.
Defined.

Lemma sample_selectors_in_document parsed selector_callable (tree : etree)
    position :
  CSSSelector parsed = Ok selector_callable →
  position ∈ selector_callable tree →
  position ∈ (iter tree).*1.
Proof.
  destruct parsed as [base pseudo|tag_name]; [done|]. intros [= <-].
  intros ([p [tag attrib children]] & Hin & Hsome)%list_elem_of_omap.
  destruct (String.eqb tag tag_name); [|done]. injection Hsome as <-.
  apply list_elem_of_fmap. by eexists (_, _).
Qed.

Lemma get_all_computed_styles_returns_witness :
  ∃ computed_styles,
    sample_styles document "print" None (Some [plain_sheet])
    = Ok computed_styles.
Proof.
  assert (is_Ok (sample_cascade document "print" None (Some [plain_sheet]))
          = true) as Hok.
  { vm_compute. reflexivity. }
  destruct (sample_cascade document "print" None (Some [plain_sheet]))
    as [st|e] eqn:E; [|discriminate Hok].
  apply (get_all_computed_styles_returns validate_and_expand parseStyle
           cssselect_parse CSSSelector get_single_keyword INITIAL_VALUES
           INHERITED compute_values find_stylesheets)
    with (st := st).
  - intros e pt style ps. reflexivity.
  - apply sample_selectors_in_document.
  - exact E.
Defined.
End Sample.
